(** * transfer-chinese: gettext catalog extraction and machine-translation fill

  A shallow embedding of the two command-line utilities of the repository:

  - [Extract] follows the extraction script (usage line
    [node test.js <po_path> [output_path]]): [extractTranslations] and
    [processPoPath];
  - [Fill] follows [index.js] (translate-po.js): the cache loading block,
    [saveCache], [getBaiduSign], [sleep], [translateText] and [main].

  JavaScript strings are [string]s holding the UTF-8 bytes of the text;
  objects used as dictionaries are [gmap string string] for their own
  properties (with string values), read through [JS.get], which falls back
  on the members inherited from [Object.prototype]; objects that are
  iterated with [Object.entries] are association lists in iteration
  order.  The imported libraries
  ([path], [crypto], [JSON], [gettext-parser]) are parameters; the provider,
  the clock and the success of each write of the cache file are oracles of
  the run; what a run does to the console, the network and the disk is
  recorded in a trace. *)

From Stdlib Require Import ZArith Ascii Lia ZifyBool.
From stdpp Require Import gmap strings list fin_maps pretty.

Local Open Scope Z_scope.

(** ** Values

    What an array element, a property read or the result of
    [translateText] can be: a string, or one of the members that every plain
    object inherits from [Object.prototype] (a function, or for [__proto__]
    the prototype itself).  Such a member is truthy and is not a string. *)

Inductive value :=
| VStr (s : string)
| VMember (name : string).

#[global] Instance value_eq_dec : EqDecision value.
Proof. solve_decision. Defined.

(** ** JavaScript string and array primitives used by both scripts *)

Module JS.

(** The line feed character, written ['\n'] in the sources. *)
Definition LF : ascii := "010"%char.
Definition NL : string := String LF "".

(** A string is truthy exactly when it is not empty. *)
Definition truthy (s : string) : bool :=
  match s with "" => false | String _ _ => true end.

(** [s.length > 0] on a string. *)
Definition str_length (s : string) : Z := Z.of_nat (String.length s).

(** The names that a plain object inherits from [Object.prototype]. *)
Definition Object_prototype : list string :=
  [ "constructor"; "__defineGetter__"; "__defineSetter__"; "hasOwnProperty";
    "__lookupGetter__"; "__lookupSetter__"; "isPrototypeOf";
    "propertyIsEnumerable"; "toString"; "valueOf"; "__proto__";
    "toLocaleString" ].

(** [o[k]] on a plain object [o]: the own property if there is one, the
    inherited member otherwise, [undefined] ([None]) when there is
    neither. *)
Definition get (o : gmap string string) (k : string) : option value :=
  match o !! k with
  | Some v => Some (VStr v)
  | None => if decide (k ∈ Object_prototype) then Some (VMember k) else None
  end.

Definition truthy_value (v : value) : bool :=
  match v with
  | VStr s => truthy s
  | VMember _ => true
  end.

(** [String(v)].  The inherited functions are native: [constructor] is the
    function [Object], [__proto__] is an object. *)
Definition member_text (name : string) : string :=
  if decide (name = "__proto__") then "[object Object]"
  else "function "
       +:+ (if decide (name = "constructor") then "Object" else name)
       +:+ "() { [native code] }".

Definition text (v : value) : string :=
  match v with
  | VStr s => s
  | VMember name => member_text name
  end.

(** [Array.prototype.join]: the elements are converted to strings. *)
Fixpoint join (sep : string) (l : list value) : string :=
  match l with
  | [] => ""
  | [x] => text x
  | x :: rest => text x +:+ sep +:+ join sep rest
  end.

(** [String.prototype.split] with a one-character separator: the result
    always has at least one element, [''.split('\n')] is [['']]. *)
Fixpoint split (sep : ascii) (s : string) : list string :=
  match s with
  | "" => [""]
  | String c r =>
      if Ascii.eqb c sep then "" :: split sep r
      else match split sep r with
           | h :: t => String c h :: t
           | [] => [String c ""]
           end
  end.

(** [s.includes(c)] for a one-character needle. *)
Fixpoint includes (s : string) (c : ascii) : bool :=
  match s with
  | "" => false
  | String d r => Ascii.eqb d c || includes r c
  end.

(** *** [String.prototype.trim]

    ECMAScript strips WhiteSpace and LineTerminator code points: U+0009,
    U+000A, U+000B, U+000C, U+000D, U+0020, U+00A0, U+1680, U+2000 to
    U+200A, U+2028, U+2029, U+202F, U+205F, U+3000 and U+FEFF.  On the
    UTF-8 bytes these are one, two or three byte sequences. *)

Definition ws1 (a : ascii) : bool :=
  let n := N_of_ascii a in
  ((9 <=? n) && (n <=? 13) || (n =? 32))%N.

Definition ws2 (a b : ascii) : bool :=
  ((N_of_ascii a =? 194) && (N_of_ascii b =? 160))%N.

Definition ws3 (a b c : ascii) : bool :=
  let x := N_of_ascii a in
  let y := N_of_ascii b in
  let z := N_of_ascii c in
  ((x =? 225) && (y =? 154) && (z =? 128)
   || (x =? 226) && (y =? 128)
      && ((128 <=? z) && (z <=? 138) || (z =? 168) || (z =? 169) || (z =? 175))
   || (x =? 226) && (y =? 129) && (z =? 159)
   || (x =? 227) && (y =? 128) && (z =? 128)
   || (x =? 239) && (y =? 187) && (z =? 191))%N.

Fixpoint trimStart (s : string) : string :=
  match s with
  | "" => ""
  | String a r1 =>
      if ws1 a then trimStart r1
      else match r1 with
           | "" => s
           | String b r2 =>
               if ws2 a b then trimStart r2
               else match r2 with
                    | "" => s
                    | String c r3 => if ws3 a b c then trimStart r3 else s
                    end
           end
  end.

(** A string all of whose code points are white space. *)
Definition blankb (s : string) : bool := negb (truthy (trimStart s)).

(** The longest prefix that is not followed by white space only. *)
Fixpoint trimEnd (s : string) : string :=
  match s with
  | "" => ""
  | String a r => if blankb s then "" else String a (trimEnd r)
  end.

Definition trim (s : string) : string := trimEnd (trimStart s).

(** The UTF-8 encodings of the white-space code points, for stating what
    [trim] removes. *)
Definition b1 (x : N) : string := String (ascii_of_N x) "".
Definition b2 (x y : N) : string := String (ascii_of_N x) (b1 y).
Definition b3 (x y z : N) : string := String (ascii_of_N x) (b2 y z).

Definition white_space : list string :=
  [ b1 9; b1 10; b1 11; b1 12; b1 13; b1 32; b2 194 160; b3 225 154 128;
    b3 226 128 128; b3 226 128 129; b3 226 128 130; b3 226 128 131;
    b3 226 128 132; b3 226 128 133; b3 226 128 134; b3 226 128 135;
    b3 226 128 136; b3 226 128 137; b3 226 128 138; b3 226 128 168;
    b3 226 128 169; b3 226 128 175; b3 226 129 159; b3 227 128 128;
    b3 239 187 191 ]%N.

Inductive blank : string → Prop :=
| blank_nil : blank ""
| blank_cons w s : w ∈ white_space → blank s → blank (w +:+ s).

End JS.


(** ** The parsed catalog, as both scripts read it

    [gettextParser.po.parse] is an imported library.  Its result is read
    through [po.translations], an object from context names to objects from
    source identifiers to entries; both levels are walked with
    [Object.entries] / [Object.values], so they are association lists in
    iteration order.  An entry's [msgid] and [msgstr] properties hold a
    string or an array (both scripts test [Array.isArray]); the parser
    puts strings in the arrays, line 137 of [index.js] can put any value
    that [translateText] returns.  [msgstr] may be absent. *)

Inductive field :=
| Str (s : string)
| Arr (l : list value).

Record entry := Entry { msgid : field; msgstr : option field }.

#[global] Instance field_eq_dec : EqDecision field.
Proof. solve_decision. Defined.

#[global] Instance entry_eq_dec : EqDecision entry.
Proof. solve_decision. Defined.

Abbreviation context := (list (string * entry)).
Abbreviation catalog := (list (string * context)).

(** Truthiness of a property value: an array is always truthy, a string
    when it is not empty, [undefined] never. *)
Definition field_truthy (f : option field) : bool :=
  match f with
  | None => false
  | Some (Arr _) => true
  | Some (Str s) => JS.truthy s
  end.

(** The [length] property of a string or an array. *)
Definition field_length (f : field) : Z :=
  match f with
  | Str s => JS.str_length s
  | Arr l => Z.of_nat (length l)
  end.

(** Exceptions that the scripts can raise. *)
Inductive exn :=
| ENOENT (p : string)
| EISDIR (p : string)
| ParseError
| InvalidPath (p : string)
| ProcessExit (code : Z)
| TypeError
| EIO (p : string).

Inductive result (A : Type) :=
| Ok (a : A)
| Throw (e : exn).
Arguments Ok {A} a.
Arguments Throw {A} e.

Definition rbind {A B} (r : result A) (k : A → result B) : result B :=
  match r with Ok a => k a | Throw e => Throw e end.

(** The file system as the scripts see it through [fs]. *)
Inductive node :=
| File (content : string)
| Dir (names : list string)
| Special.

(** ** The extraction script *)

Module Extract.

(** The imported modules [path] and [gettext-parser]. *)
Class Imports := {
  extname : string → string;
  path_join : string → string → string;
  po_parse : string → option catalog
}.

(** [fs.readFileSync(p, 'utf8')] *)
Definition readFileSync (fs : gmap string node) (p : string) : result string :=
  match fs !! p with
  | Some (File c) => Ok c
  | Some _ => Throw (EISDIR p)
  | None => Throw (ENOENT p)
  end.

(** Lines 34-37: the source text of an entry. *)
Definition english (t : entry) : string :=
  match msgid t with
  | Arr l => JS.join JS.NL l
  | Str s => s
  end.

(** Lines 39-44: the translated text of an entry. *)
Definition chinese (t : entry) : string :=
  match msgstr t with
  | Some f =>
      if field_truthy (Some f) && (0 <? field_length f)
      then match f with
           | Arr l => JS.join JS.NL l
           | Str s => s
           end
      else ""
  | None => ""
  end.

(** Lines 30-50: the body of the inner loop. *)
Definition extract_entry (translations : gmap string string)
    (kv : string * entry) : gmap string string :=
  let '(key, translation) := kv in
  if decide (key = "") then translations
  else
    if JS.truthy (english translation) && JS.truthy (chinese translation)
    then <[english translation := chinese translation]> translations
    else translations.

Definition extract_context (translations : gmap string string)
    (c : context) : gmap string string :=
  foldl extract_entry translations c.

(** Lines 25-53: the two loops over a parsed catalog. *)
Definition extract_catalog (po : catalog) : gmap string string :=
  foldl extract_context ∅ (po.*2).

Definition extractTranslations `{Imports} (fs : gmap string node)
    (poFilePath : string) : result (gmap string string) :=
  rbind (readFileSync fs poFilePath) (λ content,
    match po_parse content with
    | Some po => Ok (extract_catalog po)
    | None => Throw ParseError
    end).

(** [Object.assign(target, source)]: every property of [source] is written
    into [target]. *)
Definition Object_assign (target source : gmap string string)
  : gmap string string := source ∪ target.

(** Lines 70-79: the loop over the directory listing. *)
Fixpoint process_files `{Imports} (fs : gmap string node) (inputPath : string)
    (files : list string) (allTranslations : gmap string string)
  : result (gmap string string) :=
  match files with
  | [] => Ok allTranslations
  | file :: rest =>
      if decide (extname file = ".po") then
        rbind (extractTranslations fs (path_join inputPath file))
          (λ translations,
             process_files fs inputPath rest
               (Object_assign allTranslations translations))
      else process_files fs inputPath rest allTranslations
  end.

Definition processPoPath `{Imports} (fs : gmap string node)
    (inputPath : string) : result (gmap string string) :=
  match fs !! inputPath with
  | None => Throw (ENOENT inputPath)
  | Some (Dir files) => process_files fs inputPath files ∅
  | Some (File _) =>
      if decide (extname inputPath = ".po") then
        rbind (extractTranslations fs inputPath)
          (λ translations, Ok (Object_assign ∅ translations))
      else Throw (InvalidPath inputPath)
  | Some Special => Throw (InvalidPath inputPath)
  end.

End Extract.

(** ** The fill script, [index.js] *)

Module Fill.

(** Lines 16-26: the configuration constants. *)
Definition INPUT_PO_FILE : string := "D:/work/uqpay-webapp/src/locales/zh/messages.po".
Definition OUTPUT_PO_FILE : string := "D:/work/transfer-chinese/message_translated.po".
Definition SOURCE_LANG : string := "en".
Definition TARGET_LANG : string := "zh".
Definition CACHE_FILE : string := "D:/work/transfer-chinese/test.json".
Definition RETRY_LIMIT : nat := 3.
Definition RETRY_DELAY_BASE : Z := 1000.
Definition REQUEST_DELAY : Z := 1000.

(** The form posted to the provider (lines 73-79). *)
Record request := Request {
  q : string; from : string; to : string;
  appid : string; salt : N; sign : string
}.

(** What [axios.post] gives back: it throws, or resolves with a body that
    has no [trans_result], or with a list of segments whose [dst] fields
    are kept. *)
Inductive response :=
| Rejected
| NoResult
| TransResult (dsts : list string).

(** The imported libraries [crypto], [JSON] and [gettext-parser].  The
    catalog type keeps [po.translations], the only part the script reads. *)
Class Imports := {
  md5 : string → string;
  JSON_parse : string → option (gmap string string);
  JSON_stringify : gmap string string → string;
  po_parse : string → option catalog;
  po_compile : catalog → string
}.

(** The environment of one run.  A credential that is unset is the empty
    string, which is falsy like [undefined].  The clock and the provider are
    indexed by the number of requests already made in the run; so is the
    disk when the cache file is written: [cache_write_fails n] tells
    whether the write that follows request number [n] throws. *)
Record Env := {
  BAIDU_APP_ID : string;
  BAIDU_SECRET_KEY : string;
  Date_now : nat → N;
  axios_post : nat → request → response;
  cache_write_fails : nat → bool
}.

(** Lines written to the console, without their wording. *)
Inductive message :=
| MissingCredentials
| CacheParseError
| UsingCache (text : string)
| TranslateError (text : string) (attempt : nat)
| GiveUp (retries : nat)
| Waiting (delay : Z)
| Translating (msgid : string)
| Translated (translatedText : value)
| Done (path : string)
| Unexpected.

(** What the run does that can be observed, in order. *)
Inductive event :=
| Log (m : message)
| Post (r : request)
| Sleep (ms : Z)
| WriteFile (path : string).

(** The state of the process: the module-level [cache] object, the file
    system, and the effects so far. *)
Record world := World {
  cache : gmap string string;
  files : gmap string node;
  requests : nat;
  trace : list event
}.

Definition emit (e : event) (w : world) : world :=
  World (cache w) (files w) (requests w) (trace w ++ [e]).

Definition log (m : message) : world → world := emit (Log m).

(** Line 58: the process does nothing else during the wait. *)
Definition sleep (ms : Z) : world → world := emit (Sleep ms).

Definition set_cache (c : gmap string string) (w : world) : world :=
  World c (files w) (requests w) (trace w).

(** [fs.writeFileSync(p, content)] when it succeeds. *)
Definition writeFileSync (p content : string) (w : world) : world :=
  emit (WriteFile p)
    (World (cache w) (<[p := File content]> (files w)) (requests w) (trace w)).

Definition count_request (w : world) : world :=
  World (cache w) (files w) (S (requests w)) (trace w).

(** State and exceptions. *)
Definition M (A : Type) : Type := world → world * result A.

Definition ret {A} (a : A) : M A := λ w, (w, Ok a).
Definition throw {A} (e : exn) : M A := λ w, (w, Throw e).
Definition bind {A B} (m : M A) (k : A → M B) : M B :=
  λ w, match m w with
       | (w', Ok a) => k a w'
       | (w', Throw e) => (w', Throw e)
       end.
Definition effect (f : world → world) : M unit := λ w, (f w, Ok tt).

Notation "'let*' x := m 'in' k" := (bind m (λ x, k))
  (at level 10, x pattern, m at level 100, k at level 200).
Notation "m ;; k" := (bind m (λ _, k))
  (at level 100, k at level 200, right associativity).

Fixpoint mapM {A B} (f : A → M B) (l : list A) : M (list B) :=
  match l with
  | [] => ret []
  | a :: rest =>
      let* b := f a in
      let* bs := mapM f rest in
      ret (b :: bs)
  end.

(** What a computation leaves behind apart from its value: the state, and
    the exception if one was raised. *)
Definition outcome {A} (r : world * result A) : world * option exn :=
  (r.1, match r.2 with Ok _ => None | Throw x => Some x end).

Section Script.
Context `{Imports} (E : Env).

(** Lines 29-32. *)
Definition check_credentials : M unit :=
  if negb (JS.truthy (BAIDU_APP_ID E)) || negb (JS.truthy (BAIDU_SECRET_KEY E))
  then effect (log MissingCredentials) ;; throw (ProcessExit 1)
  else ret tt.

(** Lines 35-44. *)
Definition load_cache : M unit :=
  λ w,
    match files w !! CACHE_FILE with
    | None => (set_cache ∅ w, Ok tt)
    | Some (File cacheContent) =>
        match JSON_parse cacheContent with
        | Some c => (set_cache c w, Ok tt)
        | None => (set_cache ∅ (log CacheParseError w), Ok tt)
        end
    | Some _ => (set_cache ∅ w, Throw (EISDIR CACHE_FILE))
    end.

(** Lines 47-49.  The write can throw, and then leaves the file as it
    was. *)
Definition saveCache (w : world) : world * result unit :=
  if cache_write_fails E (requests w) then (w, Throw (EIO CACHE_FILE))
  else (writeFileSync CACHE_FILE (JSON_stringify (cache w)) w, Ok tt).

(** Lines 52-55. *)
Definition getBaiduSign (query : string) (salt : N) : string :=
  md5 (BAIDU_APP_ID E +:+ query +:+ pretty salt +:+ BAIDU_SECRET_KEY E).

(** Lines 71-79: the form of one attempt. *)
Definition build_params (text : string) (w : world) : request :=
  let salt := Date_now E (requests w) in
  let sign := getBaiduSign text salt in
  Request text SOURCE_LANG TARGET_LANG (BAIDU_APP_ID E) salt sign.

(** Lines 69-106: the retry loop, entered with [attempt = 1] and left when
    [attempt <= retries] fails; [fuel] counts the iterations that remain.
    [caught] is the [catch] block of lines 94-105: it is entered when the
    request throws, when the response has no result, and when [saveCache]
    throws, in which case [cache[text]] is already set. *)
Fixpoint attempts (text : string) (retries fuel attempt : nat) (w : world)
  : world * option value :=
  match fuel with
  | O => (w, None)
  | S fuel' =>
      let params := build_params text w in
      let w1 := count_request (emit (Post params) w) in
      let caught (w' : world) :=
        let w2 := log (TranslateError text attempt) w' in
        if (attempt =? retries)%nat
        then (log (GiveUp retries) w2, Some (VStr text))
        else
          let delay := RETRY_DELAY_BASE * 2 ^ (Z.of_nat attempt - 1) in
          attempts text retries fuel' (S attempt)
            (sleep delay (log (Waiting delay) w2)) in
      match axios_post E (requests w) params with
      | TransResult dsts =>
          let translatedText := JS.trim (JS.join JS.NL (VStr <$> dsts)) in
          match saveCache
                  (set_cache (<[text := translatedText]> (cache w1)) w1) with
          | (w2, Ok _) => (w2, Some (VStr translatedText))
          | (w2, Throw _) => caught w2
          end
      | _ => caught w1
      end
  end.

(** Lines 63-107.  [cache[text]] is a property read on a plain object.
    [None] is [undefined], the value of a call that falls off the end of
    the loop. *)
Definition translateText (text : string) (retries : nat) (w : world)
  : world * option value :=
  match JS.get (cache w) text with
  | Some v =>
      if JS.truthy_value v then (log (UsingCache text) w, Some v)
      else attempts text retries retries 1 w
  | None => attempts text retries retries 1 w
  end.

(** Line 123.  [join] is a method of arrays only: on a non-empty string
    the call raises a [TypeError]. *)
Definition needs_translation (translation : entry) : result bool :=
  match msgstr translation with
  | None => Ok true
  | Some (Str s) => if JS.truthy s then Throw TypeError else Ok true
  | Some (Arr l) => Ok (bool_decide (JS.trim (JS.join "" l) = ""))
  end.

(** Line 127. *)
Definition originalText (translation : entry) : string :=
  match msgid translation with
  | Arr l => JS.join "" l
  | Str s => s
  end.

(** Lines 133-138.  [split] is a method of strings only. *)
Definition written_msgstr (originalText : string) (translatedText : value)
  : result (list value) :=
  if JS.includes originalText JS.LF
  then match translatedText with
       | VStr t =>
           Ok [VStr (JS.join JS.NL
                       (VStr <$> ((λ line, line) <$> JS.split JS.LF t)))]
       | VMember _ => Throw TypeError
       end
  else Ok [translatedText].

(** Lines 118-145: the body of the inner loop.  The entry is changed in
    place; the value returned is the entry as it is after the iteration.
    [translateText] is called with the default [retries = RETRY_LIMIT], for
    which it never yields [undefined]. *)
Definition fill_entry (kv : string * entry) : M (string * entry) :=
  let '(key, translation) := kv in
  if decide (key = "") then ret kv
  else
    let* needs := (λ w, (w, needs_translation translation)) in
    if needs : bool then
      effect (log (Translating key)) ;;
      let* translatedText :=
        (λ w, match translateText (originalText translation) RETRY_LIMIT w with
              | (w', Some t) => (w', Ok t)
              | (w', None) => (w', Throw TypeError)
              end) in
      let* lines :=
        (λ w, (w, written_msgstr (originalText translation) translatedText)) in
      effect (log (Translated translatedText)) ;;
      effect (sleep REQUEST_DELAY) ;;
      ret (key, Entry (msgid translation) (Some (Arr lines)))
    else ret kv.

Definition fill_context (kc : string * context) : M (string * context) :=
  let* c := mapM fill_entry kc.2 in ret (kc.1, c).

Definition fill_catalog (po : catalog) : M catalog := mapM fill_context po.

(** [fs.readFileSync(p)] *)
Definition readFileSync (p : string) : M string :=
  λ w, match files w !! p with
       | Some (File c) => (w, Ok c)
       | Some _ => (w, Throw (EISDIR p))
       | None => (w, Throw (ENOENT p))
       end.

(** Lines 110-158.  The write of the output file is taken to succeed. *)
Definition main (w : world) : world :=
  let body :=
    let* input := readFileSync INPUT_PO_FILE in
    let* po := (λ w, (w, match po_parse input with
                         | Some po => Ok po
                         | None => Throw ParseError
                         end)) in
    let* po' := fill_catalog po in
    effect (writeFileSync OUTPUT_PO_FILE (po_compile po')) ;;
    effect (log (Done OUTPUT_PO_FILE)) in
  match body w with
  | (w', Ok _) => w'
  | (w', Throw _) => log Unexpected w'
  end.

(** The whole script, from a world that holds the files on disk. *)
Definition script : M unit :=
  check_credentials ;; load_cache ;; effect main.

End Script.

End Fill.

(** ** Reading the extraction loops

    The entries of a catalog in the order in which the two loops of
    [extractTranslations] visit them, and the pair that one entry writes
    into the mapping. *)

Definition all_entries (po : catalog) : list (string * entry) :=
  concat (po.*2).

Definition emits (kv : string * entry) (s t : string) : Prop :=
  kv.1 ≠ "" ∧ Extract.english kv.2 = s ∧ Extract.chinese kv.2 = t
  ∧ s ≠ "" ∧ t ≠ "".

(** A file of a directory listing that [processPoPath] reads and whose
    mapping has the pair. *)
Definition file_emits `{Extract.Imports} (fs : gmap string node)
    (dir file : string) (s t : string) : Prop :=
  Extract.extname file = ".po"
  ∧ ∃ tr, Extract.extractTranslations fs (Extract.path_join dir file) = Ok tr
          ∧ tr !! s = Some t.


(** The catalog without its header entries, and the relation between a
    catalog and a later state of it in which every entry kept its key and
    every header entry is what it was. *)
Definition strip_headers (po : catalog) : catalog :=
  (λ kc : string * context, (kc.1, filter (λ kv, kv.1 ≠ "") kc.2)) <$> po.

Definition headers_kept (c c' : context) : Prop :=
  Forall2 (λ kv kv' : string * entry,
             kv'.1 = kv.1 ∧ (kv.1 = "" → kv' = kv)) c c'.

Definition catalog_headers_kept (po po' : catalog) : Prop :=
  Forall2 (λ kc kc' : string * context,
             kc'.1 = kc.1 ∧ headers_kept kc.2 kc'.2) po po'.

(** ** Reading the trace of a fill run *)

Definition posts (t : list Fill.event) : list Fill.request :=
  omap (λ e, match e with Fill.Post r => Some r | _ => None end) t.

Definition sleeps (t : list Fill.event) : list Z :=
  omap (λ e, match e with Fill.Sleep ms => Some ms | _ => None end) t.

(** A request for a text, signed over that text. *)
Definition about `{Fill.Imports} (E : Fill.Env) (text : string)
    (r : Fill.request) : Prop :=
  Fill.q r = text
  ∧ Fill.sign r
    = Fill.md5 (Fill.BAIDU_APP_ID E +:+ text +:+ pretty (Fill.salt r)
                +:+ Fill.BAIDU_SECRET_KEY E).

(** The requests and the waits of a run, in order: the text of each
    request, the length of each wait. *)
Definition net_view (t : list Fill.event) : list (string + Z) :=
  omap (λ e, match e with
             | Fill.Post r => Some (inl (Fill.q r))
             | Fill.Sleep ms => Some (inr ms)
             | _ => None
             end) t.

(** What a run of [count] failing attempts, numbered from [k], is to look
    like: a request for the text, and between attempt [k] and the next one
    a wait of the base delay times [2 ^ (k - 1)]. *)
Fixpoint retry_schedule (text : string) (k count : nat) : list (string + Z) :=
  match count with
  | O => []
  | S c =>
      inl text ::
      match c with
      | O => []
      | S _ => inr (Fill.RETRY_DELAY_BASE * 2 ^ (Z.of_nat k - 1))
               :: retry_schedule text (S k) c
      end
  end.

(** ** Concrete collaborators for the examples *)

Module Examples.

Fixpoint assoc {A} (tbl : list (string * A)) (k : string) : option A :=
  match tbl with
  | [] => None
  | (k', a) :: rest => if decide (k' = k) then Some a else assoc rest k
  end.

(** The part of a name from its last dot on. *)
Fixpoint from_last_dot (s : string) : option string :=
  match s with
  | "" => None
  | String c r =>
      match from_last_dot r with
      | Some e => Some e
      | None => if Ascii.eqb c "."%char then Some s else None
      end
  end.

Definition dot_extension (file : string) : string :=
  default "" (from_last_dot file).

Definition table_imports (tbl : list (string * catalog)) : Extract.Imports :=
  {| Extract.extname := dot_extension;
     Extract.path_join := λ d f, d +:+ "/" +:+ f;
     Extract.po_parse := assoc tbl |}.

Definition translated (s t : string) : string * entry :=
  (s, Entry (Str s) (Some (Arr [VStr t]))).

Definition untranslated (s : string) : string * entry :=
  (s, Entry (Str s) (Some (Arr [VStr ""]))).

Definition header : string * entry :=
  ("", Entry (Str "") (Some (Arr [VStr "Language: zh"]))).


Definition hello_zh : catalog := [("", [header; translated "Hello" "你好"])].
Definition bye_zh : catalog := [("", [header; translated "Bye" "再见"])].
Definition partly : catalog :=
  [("", [header; translated "Hello" "你好"; untranslated "Bye"])].
Definition hello_en : catalog := [("", [header; translated "Hello" "Hello!"])].
Definition hello_todo : catalog := [("", [header; untranslated "Hello"])].

Definition locales (first second : string) : gmap string node :=
  {[ "locales" := Dir ["a.po"; "b.po"];
     "locales/a.po" := File first;
     "locales/b.po" := File second ]}.

Definition parser : Extract.Imports :=
  table_imports [("zh", hello_zh); ("en", hello_en); ("todo", hello_todo);
                 ("bye", bye_zh); ("partly", partly)].

(** A provider that is down, and one that answers every request with the
    given segments. *)
Definition provider_down : nat → Fill.request → Fill.response :=
  λ _ _, Fill.Rejected.

Definition provider_answers (dsts : list string)
  : nat → Fill.request → Fill.response :=
  λ _ _, Fill.TransResult dsts.

Definition libraries : Fill.Imports :=
  {| Fill.md5 := λ s, "md5:" +:+ s;
     Fill.JSON_parse := assoc [("{}", ∅)];
     Fill.JSON_stringify := λ _, "{}";
     Fill.po_parse := assoc [("zh", hello_zh); ("todo", hello_todo)];
     Fill.po_compile := λ _, "" |}.

Definition env (provider : nat → Fill.request → Fill.response) : Fill.Env :=
  {| Fill.BAIDU_APP_ID := "app";
     Fill.BAIDU_SECRET_KEY := "secret";
     Fill.Date_now := λ n, (1700000000000 + N.of_nat n)%N;
     Fill.axios_post := provider;
     Fill.cache_write_fails := λ _, false |}.

Definition start (c : gmap string string) (fs : gmap string node)
  : Fill.world :=
  Fill.World c fs 0 [].

End Examples.

(** ** Reading a run of the fill script further *)

(** The form of the request that is made when [n] requests were made
    before it, and a provider that does not answer it with a result. *)
Definition request_at `{Fill.Imports} (E : Fill.Env) (text : string)
    (n : nat) : Fill.request :=
  Fill.Request text Fill.SOURCE_LANG Fill.TARGET_LANG (Fill.BAIDU_APP_ID E)
    (Fill.Date_now E n) (Fill.getBaiduSign E text (Fill.Date_now E n)).

Definition fails_at `{Fill.Imports} (E : Fill.Env) (text : string)
    (n : nat) : Prop :=
  ∀ dsts, Fill.axios_post E n (request_at E text n) ≠ Fill.TransResult dsts.

(** An entry as the parser yields it ([msgstr] absent or an array), an
    entry that the fill loop has nothing to do for, and what the loop does
    to an entry: it leaves an entry for which there is nothing to do, and
    gives any other entry a one-element [msgstr]. *)
Definition well_shaped (kv : string * entry) : Prop :=
  msgstr kv.2 = None ∨ ∃ l, msgstr kv.2 = Some (Arr l).

Definition already_translated (kv : string * entry) : Prop :=
  kv.1 = "" ∨ Fill.needs_translation kv.2 = Ok false.

Definition filled (kv kv' : string * entry) : Prop :=
  (already_translated kv ∧ kv' = kv)
  ∨ (kv.1 ≠ "" ∧ Fill.needs_translation kv.2 = Ok true
     ∧ ∃ t, kv' = (kv.1, Entry (msgid kv.2) (Some (Arr [t])))).

Definition catalog_filled (po po' : catalog) : Prop :=
  Forall2 (λ kc kc' : string * context,
             kc'.1 = kc.1 ∧ Forall2 filled kc.2 kc'.2) po po'.

(** More collaborators for the examples: a provider that rejects the first
    [j] requests and answers the later ones. *)
Module Samples.

Definition provider_recovers (j : nat) (dsts : list string)
  : nat → Fill.request → Fill.response :=
  λ n _, if (n <? j)%nat then Fill.Rejected else Fill.TransResult dsts.

Definition greeting : string * entry :=
  ("Hello", Entry (Str "Hello") (Some (Arr [VStr ""]))).

Definition on_disk (content : string) : gmap string node :=
  {[ Fill.INPUT_PO_FILE := File content ]}.

(** A run in which the cache file cannot be written. *)
Definition full_disk (provider : nat → Fill.request → Fill.response)
  : Fill.Env :=
  {| Fill.BAIDU_APP_ID := "app";
     Fill.BAIDU_SECRET_KEY := "secret";
     Fill.Date_now := λ n, (1700000000000 + N.of_nat n)%N;
     Fill.axios_post := provider;
     Fill.cache_write_fails := λ _, true |}.

End Samples.

(** ** The entry point of the extraction script

    Lines 92-116.  [process.argv] is the list of arguments with the
    interpreter and the script first.  [fs.mkdirSync] with [recursive] and
    [fs.writeFileSync] are taken to succeed.  The model keeps the nodes
    that are made and the content that is written; it does not add the new
    names to the listings of the directories above them, which the script
    does not read again. *)

Module ExtractMain.

(** The imported [path.dirname] and [JSON.stringify]. *)
Class Imports := {
  dirname : string → string;
  JSON_stringify : gmap string string → string
}.

Inductive event :=
| Usage
| Mkdir (dir : string)
| WriteFile (path : string)
| Extracted (count : nat) (path : string).

Inductive ending :=
| Exited (code : Z)
| Uncaught (e : exn)
| Completed.

Record run := Run {
  files : gmap string node;
  events : list event;
  ended : ending
}.

(** Line 102: [process.argv[3] || 'test.json']. *)
Definition outputPath (argv : list string) : string :=
  match argv !! 3%nat with
  | Some p => if JS.truthy p then p else "test.json"
  | None => "test.json"
  end.

(** The directories that [fs.mkdirSync(dir, { recursive: true })] makes,
    outermost first: [dir] and its ancestors, up to the first one that
    exists or that is its own parent.  [path.dirname] gets from a path to
    one that is its own parent in at most [length dir + 1] steps, which
    bounds the walk. *)
Fixpoint missing `{Imports} (fuel : nat) (fs : gmap string node)
    (dir : string) : list string :=
  match fuel with
  | O => []
  | S fuel' =>
      if decide (is_Some (fs !! dir)) then []
      else if decide (dirname dir = dir) then [dir]
      else missing fuel' fs (dirname dir) ++ [dir]
  end.

Definition mkdirSync `{Imports} (dir : string) (fs : gmap string node)
  : gmap string node :=
  foldl (λ fs' d, <[d := Dir []]> fs') fs
    (missing (S (S (String.length dir))) fs dir).

Definition main `{Extract.Imports} `{Imports} (argv : list string)
    (fs : gmap string node) : run :=
  if (length argv <? 3)%nat then Run fs [Usage] (Exited 1)
  else
    let poPath := default "" (argv !! 2%nat) in
    match Extract.processPoPath fs poPath with
    | Throw e => Run fs [] (Uncaught e)
    | Ok translations =>
        let outputDir := dirname (outputPath argv) in
        let made :=
          if decide (is_Some (fs !! outputDir)) then (fs, [])
          else (mkdirSync outputDir fs, [Mkdir outputDir]) in
        Run (<[outputPath argv := File (JSON_stringify translations)]> made.1)
          (made.2 ++ [WriteFile (outputPath argv);
                      Extracted (size translations) (outputPath argv)])
          Completed
    end.

End ExtractMain.

(** A catalog in which no source text has two different translations. *)
Definition consistent (po : catalog) : Prop :=
  ∀ kv1 kv2 s t1 t2,
    kv1 ∈ all_entries po → kv2 ∈ all_entries po →
    emits kv1 s t1 → emits kv2 s t2 → t1 = t2.

Module MoreSamples.

(** [path.dirname] on the paths of the examples: every other path is
    taken to lie in the working directory. *)
Definition parent (p : string) : string :=
  default "." (({[ "out/sub/result.json" := "out/sub";
                   "out/sub" := "out" ]} : gmap string string) !! p).

Definition tools : ExtractMain.Imports :=
  {| ExtractMain.dirname := parent;
     ExtractMain.JSON_stringify := λ m, "{" +:+ pretty (size m) +:+ " pairs}" |}.

(** The working directory with the directory of catalogs in it. *)
Definition project : gmap string node :=
  <["." := Dir ["locales"]]> (Examples.locales "zh" "bye").

Definition broken (first : string) : gmap string node :=
  {[ "locales" := Dir ["a.po"; "b.po"; "notes.txt"];
     "locales/a.po" := File first;
     "locales/b.po" := File "not a catalog";
     "locales/notes.txt" := File "zh" ]}.

Definition mixed : gmap string node :=
  {[ "locales" := Dir ["a.po"; "notes.txt"; "b.po.bak"];
     "locales/a.po" := File "zh";
     "locales/notes.txt" := File "not a catalog" ]}.

Definition warm : Fill.Imports :=
  {| Fill.md5 := λ s, "md5:" +:+ s;
     Fill.JSON_parse := Examples.assoc [("pairs", {[ "Hello" := "你好" ]})];
     Fill.JSON_stringify := λ _, "pairs";
     Fill.po_parse := Examples.assoc [("todo", Examples.hello_todo)];
     Fill.po_compile := λ _, "" |}.

End MoreSamples.

(** The cache file holds the text of the cache in memory. *)
Definition synced `{Fill.Imports} (w : Fill.world) : Prop :=
  Fill.files w !! Fill.CACHE_FILE
  = Some (File (Fill.JSON_stringify (Fill.cache w))).

(** Between two states of a run: the cache and its file were left alone,
    or the file was rewritten from the cache. *)
Definition written_through `{Fill.Imports} (w w' : Fill.world) : Prop :=
  (Fill.cache w' = Fill.cache w
   ∧ Fill.files w' !! Fill.CACHE_FILE = Fill.files w !! Fill.CACHE_FILE)
  ∨ synced w'.

(** Between two states of a run: every non-empty cached translation is
    still there. *)
Definition translations_kept (w w' : Fill.world) : Prop :=
  ∀ k v, Fill.cache w !! k = Some v → v ≠ "" → Fill.cache w' !! k = Some v.

(** ** Facts about the string primitives *)

Ltac decide_by_computation :=
  match goal with
  | |- ?P => apply (bool_decide_unpack P); vm_compute; exact I
  end.

Section JSFacts.

Lemma append_cons (a : ascii) (s t : string) :
  String a s +:+ t = String a (s +:+ t).
Proof. reflexivity. Qed.

Lemma append_nil_l (s : string) : "" +:+ s = s.
Proof. reflexivity. Qed.

Lemma append_nil_r (s : string) : s +:+ "" = s.
Proof. induction s as [|a s IH]; [done | by rewrite append_cons, IH]. Qed.

Lemma append_assoc (s t u : string) : (s +:+ t) +:+ u = s +:+ t +:+ u.
Proof. induction s as [|a s IH]; [done | by rewrite !append_cons, IH]. Qed.

Lemma length_append (s t : string) :
  String.length (s +:+ t) = (String.length s + String.length t)%nat.
Proof.
  induction s as [|a s IH]; [done |].
  rewrite append_cons. simpl. by rewrite IH.
Qed.

Lemma truthy_spec (s : string) : JS.truthy s = true ↔ s ≠ "".
Proof. destruct s; simpl; split; congruence. Qed.

Lemma truthy_false (s : string) : JS.truthy s = false ↔ s = "".
Proof. destruct s; simpl; split; congruence. Qed.

Lemma split_not_nil (c : ascii) (s : string) : JS.split c s ≠ [].
Proof.
  induction s as [|a s IH]; simpl; [done |].
  destruct (Ascii.eqb a c); [done |].
  destruct (JS.split c s); done.
Qed.

Lemma join_cons (sep : string) (x : value) (l : list value) :
  l ≠ [] → JS.join sep (x :: l) = JS.text x +:+ sep +:+ JS.join sep l.
Proof. destruct l; done. Qed.

(** Splitting at a character and joining with it again gives the string
    back. *)
Lemma join_split (c : ascii) (s : string) :
  JS.join (String c "") (VStr <$> JS.split c s) = s.
Proof.
  induction s as [|a s IH]; simpl; [done |].
  destruct (Ascii.eqb_spec a c) as [-> | Hne].
  - rewrite fmap_cons, join_cons
      by (intros Hnil; apply fmap_nil_inv in Hnil; by apply split_not_nil in Hnil).
    simpl. by rewrite append_nil_l, append_cons, append_nil_l, IH.
  - pose proof (split_not_nil c s) as Hnil.
    destruct (JS.split c s) as [|h t]; [done |].
    destruct t as [|h' t].
    + simpl in *. by rewrite IH.
    + rewrite !fmap_cons in *.
      rewrite join_cons in IH by done. rewrite join_cons by done.
      simpl in *. by rewrite append_cons, IH.
Qed.

Lemma fmap_identity (l : list string) : (λ line : string, line) <$> l = l.
Proof. apply list_fmap_id. Qed.

(** The length of a joined array: the lines, and one separator between
    two lines. *)
Lemma length_join (sep : string) (x : value) (l : list value) :
  String.length (JS.join sep (x :: l))
  = (String.length (JS.text x)
     + foldr (λ y n, String.length sep + String.length (JS.text y) + n) 0 l)%nat.
Proof.
  revert x. induction l as [|y l IH]; intros x; [simpl; lia |].
  rewrite join_cons by done. rewrite !length_append, IH. simpl. lia.
Qed.

(** With two lines or more the two ways of joining differ. *)
Lemma join_empty_ne_join_NL (l : list value) :
  (2 ≤ length l)%nat → JS.join "" l ≠ JS.join JS.NL l.
Proof.
  intros Hlen Heq.
  destruct l as [|x [|y l]]; simpl in Hlen; [lia | lia |].
  apply (f_equal String.length) in Heq.
  rewrite !length_join in Heq. cbn [foldr] in Heq.
  assert (∀ l : list value,
    (foldr (λ y n, String.length "" + String.length (JS.text y) + n) 0 l
     ≤ foldr (λ y n, String.length JS.NL + String.length (JS.text y) + n) 0 l)%nat)
    as Hle.
  { clear. induction l as [|z l IH]; cbn [foldr]; [lia |].
    change (String.length JS.NL) with 1%nat in *.
    change (String.length "") with 0%nat in *. lia. }
  specialize (Hle l).
  change (String.length JS.NL) with 1%nat in *.
  change (String.length "") with 0%nat in *. lia.
Qed.

Lemma join_single_or_less (sep sep' : string) (l : list value) :
  (length l ≤ 1)%nat → JS.join sep l = JS.join sep' l.
Proof. destruct l as [|x [|y l]]; simpl; [done | done | lia]. Qed.

(** *** What [trim] removes *)

Lemma ascii_of_code (a : ascii) (n : N) : N_of_ascii a = n → a = ascii_of_N n.
Proof. intros <-. by rewrite ascii_N_embedding. Qed.

Lemma ws1_white_space (a : ascii) :
  JS.ws1 a = true → String a "" ∈ JS.white_space.
Proof.
  unfold JS.ws1. intros Hws.
  assert (N_of_ascii a = 9 ∨ N_of_ascii a = 10 ∨ N_of_ascii a = 11
          ∨ N_of_ascii a = 12 ∨ N_of_ascii a = 13 ∨ N_of_ascii a = 32)%N
    as Hcases by lia.
  repeat destruct Hcases as [Hcases | Hcases];
    apply ascii_of_code in Hcases; subst a;
    decide_by_computation.
Qed.

Lemma ws2_white_space (a b : ascii) :
  JS.ws2 a b = true → String a (String b "") ∈ JS.white_space.
Proof.
  unfold JS.ws2. intros Hws.
  assert (N_of_ascii a = 194 ∧ N_of_ascii b = 160)%N as [Ha Hb] by lia.
  apply ascii_of_code in Ha, Hb; subst a b.
  decide_by_computation.
Qed.

Lemma ws3_white_space (a b c : ascii) :
  JS.ws3 a b c = true → String a (String b (String c "")) ∈ JS.white_space.
Proof.
  unfold JS.ws3. intros Hws.
  assert ((N_of_ascii a = 225 ∧ N_of_ascii b = 154 ∧ N_of_ascii c = 128)
          ∨ (N_of_ascii a = 226 ∧ N_of_ascii b = 128
             ∧ (N_of_ascii c = 128 ∨ N_of_ascii c = 129 ∨ N_of_ascii c = 130
                ∨ N_of_ascii c = 131 ∨ N_of_ascii c = 132
                ∨ N_of_ascii c = 133 ∨ N_of_ascii c = 134
                ∨ N_of_ascii c = 135 ∨ N_of_ascii c = 136
                ∨ N_of_ascii c = 137 ∨ N_of_ascii c = 138
                ∨ N_of_ascii c = 168 ∨ N_of_ascii c = 169
                ∨ N_of_ascii c = 175))
          ∨ (N_of_ascii a = 226 ∧ N_of_ascii b = 129 ∧ N_of_ascii c = 159)
          ∨ (N_of_ascii a = 227 ∧ N_of_ascii b = 128 ∧ N_of_ascii c = 128)
          ∨ (N_of_ascii a = 239 ∧ N_of_ascii b = 187 ∧ N_of_ascii c = 191))%N
    as Hcases by lia.
  destruct Hcases as [(Ha & Hb & Hc) | [(Ha & Hb & Hc) | [(Ha & Hb & Hc)
    | [(Ha & Hb & Hc) | (Ha & Hb & Hc)]]]];
    repeat destruct Hc as [Hc | Hc];
    apply ascii_of_code in Ha, Hb, Hc; subst a b c;
    decide_by_computation.
Qed.

Lemma trimStart_white_space (w s : string) :
  w ∈ JS.white_space → JS.trimStart (w +:+ s) = JS.trimStart s.
Proof.
  unfold JS.white_space. rewrite !elem_of_cons, elem_of_nil.
  intros Hw. repeat destruct Hw as [-> | Hw]; try reflexivity. done.
Qed.

Lemma blank_trimStart (s : string) : JS.blank s → JS.trimStart s = "".
Proof.
  induction 1 as [|w s Hw _ IH]; [done |].
  by rewrite trimStart_white_space.
Qed.

(** [trimStart] either drops one white-space code point and goes on, or
    stops and returns its argument. *)
Lemma trimStart_step (s : string) :
  (∃ w r, w ∈ JS.white_space ∧ s = w +:+ r
          ∧ JS.trimStart s = JS.trimStart r
          ∧ (String.length r < String.length s)%nat)
  ∨ JS.trimStart s = s.
Proof.
  destruct s as [|a r1]; [by right |]. simpl.
  destruct (JS.ws1 a) eqn:H1.
  { left. exists (String a ""), r1.
    split; [by apply ws1_white_space |]. repeat split; simpl; lia. }
  destruct r1 as [|b r2]; [by right |].
  destruct (JS.ws2 a b) eqn:H2.
  { left. exists (String a (String b "")), r2.
    split; [by apply ws2_white_space |]. repeat split; simpl; lia. }
  destruct r2 as [|c r3]; [by right |].
  destruct (JS.ws3 a b c) eqn:H3; [| by right].
  left. exists (String a (String b (String c ""))), r3.
  split; [by apply ws3_white_space |]. repeat split; simpl; lia.
Qed.

Lemma trimStart_blank (s : string) : JS.trimStart s = "" → JS.blank s.
Proof.
  remember (String.length s) as n eqn:Hn. revert s Hn.
  induction (lt_wf n) as [n _ IH]; intros s -> Hs.
  destruct (trimStart_step s) as [(w & r & Hw & -> & Hr & Hlt) | Hid].
  - constructor; [done |]. eapply IH; [exact Hlt | done | congruence].
  - rewrite Hid in Hs. subst s. constructor.
Qed.

Lemma trimStart_idemp (s : string) :
  JS.trimStart (JS.trimStart s) = JS.trimStart s.
Proof.
  remember (String.length s) as n eqn:Hn. revert s Hn.
  induction (lt_wf n) as [n _ IH]; intros s ->.
  destruct (trimStart_step s) as [(w & r & Hw & -> & Hr & Hlt) | Hid].
  - rewrite Hr. by eapply IH.
  - by rewrite !Hid.
Qed.

Lemma trimEnd_empty (s : string) : JS.trimEnd s = "" ↔ JS.trimStart s = "".
Proof.
  destruct s as [|a r]; [done |].
  change (JS.trimEnd (String a r))
    with (if JS.blankb (String a r) then "" else String a (JS.trimEnd r)).
  unfold JS.blankb. destruct (JS.trimStart (String a r)); simpl.
  - done.
  - split; discriminate.
Qed.

(** [s.trim() === ''] holds exactly for the strings made of white space. *)
Lemma trim_empty_iff_blank (s : string) : JS.trim s = "" ↔ JS.blank s.
Proof.
  unfold JS.trim. rewrite trimEnd_empty, trimStart_idemp.
  split; [apply trimStart_blank | apply blank_trimStart].
Qed.

End JSFacts.

(** ** The extraction script *)

Section ExtractFacts.

Lemma foldl_concat {A B} (f : A → B → A) (a : A) (ls : list (list B)) :
  foldl (foldl f) a ls = foldl f a (concat ls).
Proof.
  revert a. induction ls as [|l ls IH]; intros a; simpl; [done |].
  by rewrite foldl_app, IH.
Qed.

Lemma extract_catalog_flat (po : catalog) :
  Extract.extract_catalog po = foldl Extract.extract_entry ∅ (all_entries po).
Proof. apply foldl_concat. Qed.

Lemma emits_dec (kv : string * entry) (s : string) :
  (∃ t, emits kv s t) ∨ (∀ t, ¬ emits kv s t).
Proof.
  unfold emits.
  destruct (decide (kv.1 = "")) as [Hk | Hk];
    [right; intros t (? & _); done |].
  destruct (decide (Extract.english kv.2 = s)) as [He | He];
    [| right; intros t (_ & ? & _); done].
  destruct (decide (s = "")) as [Hs | Hs];
    [right; intros t (_ & _ & _ & ? & _); done |].
  destruct (decide (Extract.chinese kv.2 = "")) as [Hc | Hc];
    [right; intros t (_ & _ & ? & _ & ?); congruence |].
  left. by exists (Extract.chinese kv.2).
Qed.

(** One iteration of the inner loop, seen from one key of the mapping. *)
Lemma extract_entry_lookup (tr : gmap string string) (kv : string * entry)
    (s : string) :
  (∀ t, emits kv s t → Extract.extract_entry tr kv !! s = Some t)
  ∧ ((∀ t, ¬ emits kv s t) → Extract.extract_entry tr kv !! s = tr !! s).
Proof.
  destruct kv as [key e]. unfold emits, Extract.extract_entry. simpl.
  destruct (decide (key = "")) as [-> | Hkey];
    [split; [intros t (? & _); done | done] |].
  destruct (JS.truthy (Extract.english e)) eqn:Hen; simpl.
  - destruct (JS.truthy (Extract.chinese e)) eqn:Hch; simpl.
    + apply truthy_spec in Hen, Hch. split.
      * intros t (_ & <- & <- & _). apply lookup_insert_eq.
      * intros Hno. apply lookup_insert_ne. intros Heq.
        apply (Hno (Extract.chinese e)). repeat split; congruence.
    + apply truthy_false in Hch. split; [| done].
      intros t (_ & _ & <- & _ & Ht). done.
  - apply truthy_false in Hen. split; [| done].
    intros t (_ & <- & _ & Hs & _). done.
Qed.

(** The loops leave under a key what the last entry that emits it wrote. *)
Lemma extract_entries_lookup (l : list (string * entry))
    (tr : gmap string string) (s t : string) :
  foldl Extract.extract_entry tr l !! s = Some t ↔
    (∃ pre kv post, l = pre ++ kv :: post ∧ emits kv s t
       ∧ ∀ kv' t', kv' ∈ post → ¬ emits kv' s t')
    ∨ (tr !! s = Some t ∧ ∀ kv' t', kv' ∈ l → ¬ emits kv' s t').
Proof.
  induction l as [|kv l IH] using rev_ind.
  - simpl. split.
    + intros Hs. right. split; [done |]. by intros ?? ?%elem_of_nil.
    + intros [(pre & kv & post & Hl & _) | [Hs _]]; [| done].
      by destruct pre.
  - rewrite foldl_app. simpl.
    destruct (extract_entry_lookup (foldl Extract.extract_entry tr l) kv s)
      as [Hyes Hno].
    destruct (emits_dec kv s) as [[t0 Ht0] | Hnone].
    + rewrite (Hyes t0 Ht0). split.
      * intros [= <-]. left. exists l, kv, []. split; [done |].
        split; [done |]. by intros ?? ?%elem_of_nil.
      * intros [(pre & kv' & post & Hl & Hkv' & Hpost) | [_ Hall]].
        -- destruct post as [|p post _] using rev_ind.
           ++ apply app_inj_tail in Hl as [_ <-].
              destruct Ht0 as (_ & _ & <- & _), Hkv' as (_ & _ & <- & _).
              done.
           ++ rewrite app_comm_cons, app_assoc in Hl.
              apply app_inj_tail in Hl as [_ <-].
              exfalso. apply (Hpost kv t0); [| done].
              apply elem_of_app. right. apply list_elem_of_singleton. done.
        -- exfalso. apply (Hall kv t0); [| done].
           apply elem_of_app. right. by apply list_elem_of_singleton.
    + rewrite (Hno Hnone), IH. split.
      * intros [(pre & kv' & post & -> & Hkv' & Hpost) | [Hs Hall]].
        -- left. exists pre, kv', (post ++ [kv]).
           split; [by rewrite <- app_assoc |]. split; [done |].
           intros kv'' t' [? | ->%list_elem_of_singleton]%elem_of_app;
             [by apply Hpost | apply Hnone].
        -- right. split; [done |].
           intros kv'' t' [? | ->%list_elem_of_singleton]%elem_of_app;
             [by apply Hall | apply Hnone].
      * intros [(pre & kv' & post & Hl & Hkv' & Hpost) | [Hs Hall]].
        -- destruct post as [|p post _] using rev_ind.
           ++ apply app_inj_tail in Hl as [_ <-]. by destruct (Hnone t).
           ++ rewrite app_comm_cons, app_assoc in Hl.
              apply app_inj_tail in Hl as [-> <-].
              left. exists pre, kv', post. split; [done |]. split; [done |].
              intros kv'' t' Hin. apply Hpost. apply elem_of_app. by left.
        -- right. split; [done |]. intros kv'' t' Hin. apply Hall.
           apply elem_of_app. by left.
Qed.

Lemma extract_catalog_lookup (po : catalog) (s t : string) :
  Extract.extract_catalog po !! s = Some t ↔
    ∃ pre kv post, all_entries po = pre ++ kv :: post ∧ emits kv s t
      ∧ ∀ kv' t', kv' ∈ post → ¬ emits kv' s t'.
Proof.
  rewrite extract_catalog_flat, extract_entries_lookup. split.
  - intros [Hex | [Hempty _]]; [done |]. by rewrite lookup_empty in Hempty.
  - intros Hex. by left.
Qed.

Lemma extract_catalog_nonempty (po : catalog) (s t : string) :
  Extract.extract_catalog po !! s = Some t → s ≠ "" ∧ t ≠ "".
Proof.
  intros (pre & kv & post & _ & (_ & _ & _ & Hs & Ht) & _)%extract_catalog_lookup.
  done.
Qed.



(** *** The header entry in the extraction *)

Lemma extract_entry_header (tr : gmap string string) (e : entry) :
  Extract.extract_entry tr ("", e) = tr.
Proof. reflexivity. Qed.

Lemma extract_entries_strip (l : list (string * entry))
    (tr : gmap string string) :
  foldl Extract.extract_entry tr (filter (λ kv, kv.1 ≠ "") l)
  = foldl Extract.extract_entry tr l.
Proof.
  revert tr. induction l as [|[key e] l IH]; intros tr; [done |].
  destruct (decide (key = "")) as [-> | Hkey].
  - rewrite (filter_cons_False (λ kv : string * entry, kv.1 ≠ ""))
      by (simpl; auto).
    simpl. apply IH.
  - rewrite (filter_cons_True (λ kv : string * entry, kv.1 ≠ "")) by done.
    simpl. apply IH.
Qed.

Lemma all_entries_strip (po : catalog) :
  all_entries (strip_headers po) = filter (λ kv, kv.1 ≠ "") (all_entries po).
Proof.
  unfold all_entries, strip_headers.
  induction po as [|[name c] po IH]; [done |].
  rewrite !fmap_cons. simpl. rewrite filter_app. by f_equal.
Qed.

Lemma extract_catalog_strip (po : catalog) :
  Extract.extract_catalog (strip_headers po) = Extract.extract_catalog po.
Proof.
  by rewrite !extract_catalog_flat, all_entries_strip, extract_entries_strip.
Qed.

Lemma extract_catalog_no_empty_key (po : catalog) :
  Extract.extract_catalog po !! "" = None.
Proof.
  destruct (Extract.extract_catalog po !! "") as [t |] eqn:Hs; [| done].
  by apply extract_catalog_nonempty in Hs as [? _].
Qed.

(** *** Merging the files of a directory *)

Lemma Object_assign_lookup (target source : gmap string string) (s : string) :
  Extract.Object_assign target source !! s
  = match source !! s with Some t => Some t | None => target !! s end.
Proof.
  unfold Extract.Object_assign.
  destruct (source !! s) as [t |] eqn:Hs.
  - by apply lookup_union_Some_l.
  - rewrite lookup_union_r; done.
Qed.

Section Merge.
Context `{Extract.Imports} (fs : gmap string node) (dir : string).



Lemma extractTranslations_no_empty_key (p : string)
    (tr : gmap string string) :
  Extract.extractTranslations fs p = Ok tr → tr !! "" = None.
Proof.
  unfold Extract.extractTranslations.
  destruct (Extract.readFileSync fs p) as [content |]; simpl; [| done].
  destruct (Extract.po_parse content) as [po |]; [| done].
  intros [= <-]. apply extract_catalog_no_empty_key.
Qed.

Lemma process_files_no_empty_key (files : list string)
    (acc m : gmap string string) :
  acc !! "" = None →
  Extract.process_files fs dir files acc = Ok m → m !! "" = None.
Proof.
  revert acc. induction files as [|f files IH]; intros acc Hacc Hrun.
  - simpl in Hrun. congruence.
  - simpl in Hrun. destruct (decide (Extract.extname f = ".po")).
    + destruct (Extract.extractTranslations fs (Extract.path_join dir f))
        as [tr |] eqn:Htr; simpl in Hrun; [| done].
      eapply IH; [| exact Hrun].
      rewrite Object_assign_lookup.
      by rewrite (extractTranslations_no_empty_key _ _ Htr).
    + by eapply IH.
Qed.

End Merge.

Lemma processPoPath_no_empty_key `{Extract.Imports} (fs : gmap string node)
    (inputPath : string) (m : gmap string string) :
  Extract.processPoPath fs inputPath = Ok m → m !! "" = None.
Proof.
  unfold Extract.processPoPath.
  destruct (fs !! inputPath) as [[content | files |] |]; [| | done | done].
  - destruct (decide (Extract.extname inputPath = ".po")); [| done].
    destruct (Extract.extractTranslations fs inputPath) as [tr |] eqn:Htr;
      simpl; [| done].
    intros [= <-]. rewrite Object_assign_lookup.
    by rewrite (extractTranslations_no_empty_key _ _ _ Htr).
  - by apply process_files_no_empty_key.
Qed.




End ExtractFacts.

(** ** The fill script *)

Section FillFacts.
Context `{Fill.Imports} (E : Fill.Env).

Lemma net_view_app (t u : list Fill.event) :
  net_view (t ++ u) = net_view t ++ net_view u.
Proof. apply omap_app. Qed.

Lemma posts_app (t u : list Fill.event) : posts (t ++ u) = posts t ++ posts u.
Proof. apply omap_app. Qed.

Lemma sleeps_app (t u : list Fill.event) :
  sleeps (t ++ u) = sleeps t ++ sleeps u.
Proof. apply omap_app. Qed.

(** One iteration of the retry loop. *)
Lemma attempts_S (text : string) (retries fuel attempt : nat) (w : Fill.world) :
  Fill.attempts E text retries (S fuel) attempt w
  = let params := Fill.build_params E text w in
    let w1 := Fill.count_request (Fill.emit (Fill.Post params) w) in
    let caught (w' : Fill.world) :=
      let w2 := Fill.log (Fill.TranslateError text attempt) w' in
      if (attempt =? retries)%nat
      then (Fill.log (Fill.GiveUp retries) w2, Some (VStr text))
      else
        let delay := Fill.RETRY_DELAY_BASE * 2 ^ (Z.of_nat attempt - 1) in
        Fill.attempts E text retries fuel (S attempt)
          (Fill.sleep delay (Fill.log (Fill.Waiting delay) w2)) in
    match Fill.axios_post E (Fill.requests w) params with
    | Fill.TransResult dsts =>
        let translatedText := JS.trim (JS.join JS.NL (VStr <$> dsts)) in
        match Fill.saveCache E
                (Fill.set_cache (<[text := translatedText]> (Fill.cache w))
                   w1) with
        | (w2, Ok _) => (w2, Some (VStr translatedText))
        | (w2, Throw _) => caught w2
        end
    | _ => caught w1
    end.
Proof. reflexivity. Qed.

(** A property read on the cache. *)
Lemma get_own (c : gmap string string) (k v : string) :
  c !! k = Some v → JS.get c k = Some (VStr v).
Proof. unfold JS.get. by intros ->. Qed.

Lemma get_inherited (c : gmap string string) (k : string) :
  c !! k = None → k ∈ JS.Object_prototype → JS.get c k = Some (VMember k).
Proof. unfold JS.get. intros -> Hin. by rewrite decide_True. Qed.

Lemma get_undefined (c : gmap string string) (k : string) :
  c !! k = None → k ∉ JS.Object_prototype → JS.get c k = None.
Proof. unfold JS.get. intros -> Hin. by rewrite decide_False. Qed.

Lemma get_cases (c : gmap string string) (k : string) :
  (∃ v, c !! k = Some v ∧ JS.get c k = Some (VStr v))
  ∨ (c !! k = None ∧ k ∈ JS.Object_prototype
     ∧ JS.get c k = Some (VMember k))
  ∨ (c !! k = None ∧ (k ∉ JS.Object_prototype) ∧ JS.get c k = None).
Proof.
  destruct (c !! k) as [v |] eqn:Hk.
  - left. exists v. split; [done | by apply get_own].
  - right. destruct (decide (k ∈ JS.Object_prototype)) as [Hin | Hout].
    + left. by rewrite get_inherited.
    + right. by rewrite get_undefined.
Qed.

(** The three ways through [translateText]: an own value that is not
    empty and an inherited member are returned as cached, anything else
    enters the loop. *)
Lemma translateText_cases (text : string) (retries : nat) (w : Fill.world) :
  (∃ v, Fill.cache w !! text = Some v ∧ v ≠ ""
        ∧ Fill.translateText E text retries w
          = (Fill.log (Fill.UsingCache text) w, Some (VStr v)))
  ∨ (Fill.cache w !! text = None ∧ text ∈ JS.Object_prototype
     ∧ Fill.translateText E text retries w
       = (Fill.log (Fill.UsingCache text) w, Some (VMember text)))
  ∨ ((Fill.cache w !! text = Some ""
      ∨ (Fill.cache w !! text = None ∧ text ∉ JS.Object_prototype))
     ∧ Fill.translateText E text retries w
       = Fill.attempts E text retries retries 1 w).
Proof.
  unfold Fill.translateText.
  destruct (get_cases (Fill.cache w) text)
    as [(v & Hown & ->) | [(Hnone & Hin & ->) | (Hnone & Hout & ->)]].
  - destruct v as [|a v]; simpl.
    + right. right. split; [by left | done].
    + left. by exists (String a v).
  - right. left. done.
  - right. right. split; [by right | done].
Qed.

(** The loop only adds to the trace and to the count of requests. *)
Lemma attempts_extends (text : string) (retries fuel attempt : nat)
    (w : Fill.world) :
  ∃ rest,
    Fill.trace (Fill.attempts E text retries fuel attempt w).1
    = Fill.trace w ++ rest.
Proof.
  revert attempt w. induction fuel as [|fuel IH]; intros attempt w.
  - exists []. simpl. by rewrite app_nil_r.
  - rewrite attempts_S. cbv zeta. unfold Fill.saveCache.
    destruct (Fill.axios_post E _ _) as [| | dsts];
      [| | destruct (Fill.cache_write_fails E _); cbv iota].
    1,2,3: destruct (attempt =? retries)%nat;
      [ simpl; rewrite <- !app_assoc; by eexists
      | match goal with
        | |- context [Fill.attempts _ _ _ _ ?a ?w'] =>
            destruct (IH a w') as [rest ->]
        end; simpl; rewrite <- !app_assoc; by eexists ].
    simpl. rewrite <- !app_assoc. by eexists.
Qed.

(** Every iteration of the retry loop starts with a request. *)
Lemma attempts_starts_with_post (text : string) (retries fuel attempt : nat)
    (w : Fill.world) :
  ∃ rest,
    Fill.trace (Fill.attempts E text retries (S fuel) attempt w).1
    = Fill.trace w ++ Fill.Post (Fill.build_params E text w) :: rest.
Proof.
  rewrite attempts_S. cbv zeta. unfold Fill.saveCache.
  destruct (Fill.axios_post E _ _) as [| | dsts];
    [| | destruct (Fill.cache_write_fails E _); cbv iota].
  1,2,3: destruct (attempt =? retries)%nat;
    [ simpl; rewrite <- !app_assoc; by eexists
    | match goal with
      | |- context [Fill.attempts _ _ _ _ ?a ?w'] =>
          destruct (attempts_extends text retries fuel a w') as [rest ->]
      end; simpl; rewrite <- !app_assoc; by eexists ].
  simpl. rewrite <- !app_assoc. by eexists.
Qed.

(** A loop that is entered returns a string: the trimmed answer, or the
    text itself. *)
Lemma attempts_defined (text : string) (retries fuel attempt : nat)
    (w : Fill.world) :
  (attempt + fuel = retries + 1)%nat → (1 ≤ fuel)%nat →
  ∃ t, (Fill.attempts E text retries fuel attempt w).2 = Some (VStr t).
Proof.
  revert attempt w. induction fuel as [|fuel IH]; intros attempt w Hsum Hpos;
    [lia |].
  rewrite attempts_S. cbv zeta. unfold Fill.saveCache.
  destruct (Fill.axios_post E _ _) as [| | dsts];
    [| | destruct (Fill.cache_write_fails E _); cbv iota; [| by eexists]].
  all: destruct (Nat.eqb_spec attempt retries) as [Heq | Hne];
    [by eexists | apply IH; lia].
Qed.

Lemma translateText_defined (text : string) (retries : nat) (w : Fill.world) :
  (1 ≤ retries)%nat → ∃ t, (Fill.translateText E text retries w).2 = Some t.
Proof.
  intros Hpos.
  destruct (translateText_cases text retries w)
    as [(v & _ & _ & ->) | [(_ & _ & ->) | (_ & ->)]]; [by eexists .. |].
  destruct (attempts_defined text retries retries 1 w) as [t ->]; [lia .. |].
  by eexists.
Qed.

(** What [translateText] returns is a string, or the member that the text
    names in [Object.prototype]. *)
Lemma translateText_member (text name : string) (retries : nat)
    (w : Fill.world) :
  (1 ≤ retries)%nat →
  (Fill.translateText E text retries w).2 = Some (VMember name) →
  name = text ∧ text ∈ JS.Object_prototype
  ∧ Fill.cache w !! text = None
  ∧ Fill.translateText E text retries w
    = (Fill.log (Fill.UsingCache text) w, Some (VMember text)).
Proof.
  intros Hpos.
  destruct (translateText_cases text retries w)
    as [(v & _ & _ & ->) | [(Hnone & Hin & ->) | (_ & ->)]]; simpl.
  - done.
  - intros [= ->]. done.
  - destruct (attempts_defined text retries retries 1 w) as [t ->]; [lia .. |].
    done.
Qed.

(** The loop when no attempt succeeds. *)
Lemma attempts_all_fail (text : string) (retries fuel attempt : nat)
    (w : Fill.world) :
  (∀ n r dsts, Fill.q r = text → Fill.axios_post E n r ≠ Fill.TransResult dsts) →
  (attempt + fuel = retries + 1)%nat → (1 ≤ fuel)%nat →
  ∃ w', Fill.attempts E text retries fuel attempt w = (w', Some (VStr text))
        ∧ net_view (Fill.trace w')
          = net_view (Fill.trace w) ++ retry_schedule text attempt fuel
        ∧ Fill.requests w' = (Fill.requests w + fuel)%nat
        ∧ Fill.cache w' = Fill.cache w
        ∧ Fill.files w' = Fill.files w.
Proof.
  intros Hfail. revert attempt w.
  induction fuel as [|fuel IH]; intros attempt w Hsum Hpos; [lia |].
  rewrite attempts_S. cbv zeta.
  destruct (Fill.axios_post E _ _) as [| | dsts] eqn:Hpost;
    [| | by apply Hfail in Hpost].
  all: destruct (Nat.eqb_spec attempt retries) as [Heq | Hne].
  all: try (assert (fuel = 0%nat) as -> by lia; eexists; split; [done |];
            simpl; rewrite !net_view_app; simpl;
            rewrite ?app_nil_r; repeat split; lia).
  all: destruct fuel as [|fuel]; [lia |].
  all: match goal with
       | |- context [Fill.attempts _ _ _ _ ?a ?w'] =>
           destruct (IH a w') as (w'' & -> & Hnet & Hreq & Hcache & Hfiles);
             [lia | lia |]
       end.
  all: eexists; split; [done |].
  all: rewrite Hnet, Hreq, Hcache, Hfiles; simpl.
  all: rewrite !net_view_app; simpl; rewrite ?app_nil_r, <- ?app_assoc; simpl.
  all: repeat split; lia.
Qed.

Lemma sleeps_net_view (t : list Fill.event) :
  sleeps t = omap (λ x, match x with inr ms => Some ms | inl _ => None end)
               (net_view t).
Proof.
  induction t as [|e t IH]; [done |].
  destruct e; simpl; by rewrite ?IH.
Qed.

Lemma posts_net_view (t : list Fill.event) :
  Fill.q <$> posts t
  = omap (λ x, match x with inl s => Some s | inr _ => None end) (net_view t).
Proof.
  induction t as [|e t IH]; [done |].
  destruct e; simpl; try apply IH. f_equal. apply IH.
Qed.

Lemma retry_schedule_sleeps (text : string) (k count : nat) :
  omap (λ x, match x with inr ms => Some ms | inl _ => None end)
    (retry_schedule text k count)
  = (λ j : nat, Fill.RETRY_DELAY_BASE * 2 ^ (Z.of_nat j - 1))
    <$> seq k (count - 1).
Proof.
  revert k. induction count as [|count IH]; intros k; [done |].
  destruct count as [|count]; [done |].
  specialize (IH (S k)). cbn [retry_schedule] in *. simpl omap in *.
  rewrite IH. simpl. by rewrite Nat.sub_0_r.
Qed.

Lemma retry_schedule_posts (text : string) (k count : nat) :
  omap (λ x, match x with inl s => Some s | inr _ => None end)
    (retry_schedule text k count)
  = replicate count text.
Proof.
  revert k. induction count as [|count IH]; intros k; [done |].
  destruct count as [|count]; [done |].
  specialize (IH (S k)). cbn [retry_schedule] in *. simpl omap in *.
  by rewrite IH.
Qed.

(** C3.  The claim is that a text that is not in the cache is returned
    unchanged after [retries] failed attempts.  The code reads [cache[text]]
    on a plain object, so for a text that names a member of
    [Object.prototype], such as "constructor", and that the cache does not
    hold, the test of line 64 succeeds: [translateText] logs that it uses
    the cache and returns the inherited member, which is not the text and
    not a string, without a single request and without a wait, whatever the
    provider would answer. *)
Theorem inherited_name_is_served_as_cached (text : string) (retries : nat)
    (w : Fill.world) :
  text ∈ JS.Object_prototype →
  Fill.cache w !! text = None →
  Fill.translateText E text retries w
    = (Fill.log (Fill.UsingCache text) w, Some (VMember text))
  ∧ (Fill.translateText E text retries w).2 ≠ Some (VStr text)
  ∧ Fill.requests (Fill.translateText E text retries w).1 = Fill.requests w
  ∧ posts (Fill.trace (Fill.translateText E text retries w).1)
    = posts (Fill.trace w)
  ∧ sleeps (Fill.trace (Fill.translateText E text retries w).1)
    = sleeps (Fill.trace w).
Proof.
  intros Hin Hmiss. unfold Fill.translateText.
  rewrite (get_inherited _ _ Hmiss Hin). simpl.
  rewrite posts_app, sleeps_app. simpl. by rewrite !app_nil_r.
Qed.

(** For a text that is not in the cache and does not name a member of
    [Object.prototype], and a provider of which every attempt fails,
    [translateText] returns the text unchanged, without raising, after
    exactly [retries] requests (the configured limit, [RETRY_LIMIT = 3] by
    default); between attempt [k] and attempt [k + 1] it waits the base
    delay times [2 ^ (k - 1)], and it waits nowhere else. *)
Theorem failing_provider_returns_source (text : string) (retries : nat)
    (w : Fill.world) :
  Fill.cache w !! text = None →
  text ∉ JS.Object_prototype →
  (∀ n r dsts, Fill.q r = text → Fill.axios_post E n r ≠ Fill.TransResult dsts) →
  (1 ≤ retries)%nat →
  ∃ w', Fill.translateText E text retries w = (w', Some (VStr text))
        ∧ Fill.requests w' = (Fill.requests w + retries)%nat
        ∧ Fill.q <$> posts (Fill.trace w')
          = (Fill.q <$> posts (Fill.trace w)) ++ replicate retries text
        ∧ sleeps (Fill.trace w')
          = sleeps (Fill.trace w)
            ++ ((λ k : nat, Fill.RETRY_DELAY_BASE * 2 ^ (Z.of_nat k - 1))
                <$> seq 1 (retries - 1))
        ∧ net_view (Fill.trace w')
          = net_view (Fill.trace w) ++ retry_schedule text 1 retries
        ∧ Fill.cache w' = Fill.cache w.
Proof.
  intros Hmiss Hout Hfail Hpos. unfold Fill.translateText.
  rewrite (get_undefined _ _ Hmiss Hout).
  destruct (attempts_all_fail text retries retries 1 w Hfail)
    as (w' & Hrun & Hnet & Hreq & Hcache & _); [lia | lia |].
  exists w'. split; [done |]. split; [done |].
  rewrite !sleeps_net_view, !posts_net_view, Hnet, !omap_app.
  by rewrite retry_schedule_sleeps, retry_schedule_posts.
Qed.

(** C2, as amended.  For every text whose value in the cache is a non-empty
    string, [translateText] issues no provider request and returns the
    cached value: it only logs that the cache is used. *)
Theorem cached_text_skips_provider (text v : string) (retries : nat)
    (w : Fill.world) :
  Fill.cache w !! text = Some v → v ≠ "" →
  Fill.translateText E text retries w
    = (Fill.log (Fill.UsingCache text) w, Some (VStr v))
  ∧ posts (Fill.trace (Fill.translateText E text retries w).1)
    = posts (Fill.trace w)
  ∧ Fill.requests (Fill.translateText E text retries w).1 = Fill.requests w
  ∧ Fill.cache (Fill.translateText E text retries w).1 = Fill.cache w.
Proof.
  intros Hhit Hv. unfold Fill.translateText. rewrite (get_own _ _ _ Hhit).
  apply truthy_spec in Hv. cbn [JS.truthy_value]. rewrite Hv. simpl.
  rewrite posts_app. simpl. by rewrite app_nil_r.
Qed.

(** C10.  When the cache maps a text to the empty string, the key is
    present but [translateText] does not take the cache-hit path: the test
    is on the truthiness of the stored value, so the call enters the retry
    loop, and with at least one attempt allowed the first thing it does is
    to post a request for the text. *)
Theorem empty_cached_value_contacts_provider (text : string) (retries : nat)
    (w : Fill.world) :
  Fill.cache w !! text = Some "" →
  Fill.translateText E text retries w
    = Fill.attempts E text retries retries 1 w
  ∧ ∀ n, ∃ rest,
      Fill.trace (Fill.translateText E text (S n) w).1
      = Fill.trace w ++ Fill.Post (Fill.build_params E text w) :: rest.
Proof.
  intros Hempty. unfold Fill.translateText.
  rewrite (get_own _ _ _ Hempty).
  change (JS.truthy_value (VStr "")) with false. cbv iota.
  split; [done |]. intros n. apply attempts_starts_with_post.
Qed.

(** C7.  When the cache file exists and its content does not parse as
    JSON, loading the cache raises nothing: the cache is the empty mapping,
    a warning is logged, and the script goes on to [main]. *)
Theorem corrupt_cache_is_empty (w : Fill.world) (cacheContent : string) :
  Fill.files w !! Fill.CACHE_FILE = Some (File cacheContent) →
  Fill.JSON_parse cacheContent = None →
  Fill.load_cache w
    = (Fill.set_cache ∅ (Fill.log Fill.CacheParseError w), Ok tt)
  ∧ Fill.cache (Fill.load_cache w).1 = ∅
  ∧ Fill.trace (Fill.load_cache w).1
    = Fill.trace w ++ [Fill.Log Fill.CacheParseError]
  ∧ (Fill.BAIDU_APP_ID E ≠ "" → Fill.BAIDU_SECRET_KEY E ≠ "" →
     Fill.script E w
     = (Fill.main E (Fill.set_cache ∅ (Fill.log Fill.CacheParseError w)),
        Ok tt)).
Proof.
  intros Hfile Hparse.
  assert (Fill.load_cache w
          = (Fill.set_cache ∅ (Fill.log Fill.CacheParseError w), Ok tt))
    as Hload by (unfold Fill.load_cache; by rewrite Hfile, Hparse).
  rewrite Hload. repeat split.
  intros Hid%truthy_spec Hkey%truthy_spec.
  unfold Fill.script, Fill.check_credentials, Fill.bind.
  rewrite Hid, Hkey. simpl. by rewrite Hload.
Qed.

(** *** The loop over the entries *)

Lemma translateText_extends (text : string) (retries : nat) (w : Fill.world) :
  ∃ rest, Fill.trace (Fill.translateText E text retries w).1
          = Fill.trace w ++ rest.
Proof.
  unfold Fill.translateText.
  destruct (JS.get (Fill.cache w) text) as [v |];
    [destruct (JS.truthy_value v) |];
    try apply attempts_extends.
  by eexists.
Qed.

(** No name of [Object.prototype] has a line feed in it. *)
Lemma Object_prototype_one_line (name : string) :
  name ∈ JS.Object_prototype → JS.includes name JS.LF = false.
Proof.
  revert name. apply Forall_forall. unfold JS.Object_prototype.
  repeat constructor.
Qed.

Lemma written_msgstr_string (original translated : string) :
  Fill.written_msgstr original (VStr translated) = Ok [VStr translated].
Proof.
  unfold Fill.written_msgstr. destruct (JS.includes original JS.LF); [| done].
  rewrite fmap_identity. unfold JS.NL. by rewrite join_split.
Qed.

Lemma written_msgstr_single (original : string) (translated : value) :
  (∀ name, translated = VMember name → JS.includes original JS.LF = false) →
  Fill.written_msgstr original translated = Ok [translated].
Proof.
  destruct translated as [t | name]; intros Hline.
  - apply written_msgstr_string.
  - unfold Fill.written_msgstr. by rewrite (Hline name).
Qed.

(** What [translateText] returns is written as the one element of
    [msgstr]: an inherited member is returned for its own name only. *)
Lemma written_msgstr_translated (text : string) (retries : nat)
    (w w' : Fill.world) (t : value) :
  (1 ≤ retries)%nat →
  Fill.translateText E text retries w = (w', Some t) →
  Fill.written_msgstr text t = Ok [t].
Proof.
  intros Hpos Hrun. apply written_msgstr_single. intros name ->.
  destruct (translateText_member text name retries w Hpos)
    as (_ & Hin & _); [by rewrite Hrun |].
  by apply Object_prototype_one_line.
Qed.

Lemma fill_entry_header (e : entry) (w : Fill.world) :
  Fill.fill_entry E ("", e) w = (w, Ok ("", e)).
Proof. reflexivity. Qed.

Lemma fill_entry_skips (key : string) (e : entry) (w : Fill.world) :
  key ≠ "" → Fill.needs_translation e = Ok false →
  Fill.fill_entry E (key, e) w = (w, Ok (key, e)).
Proof.
  intros Hkey Hneeds. unfold Fill.fill_entry, Fill.bind.
  destruct (decide (key = "")); [done |]. by rewrite Hneeds.
Qed.

Lemma fill_entry_throws (key : string) (e : entry) (w : Fill.world) (x : exn) :
  key ≠ "" → Fill.needs_translation e = Throw x →
  Fill.fill_entry E (key, e) w = (w, Throw x).
Proof.
  intros Hkey Hneeds. unfold Fill.fill_entry, Fill.bind.
  destruct (decide (key = "")); [done |]. by rewrite Hneeds.
Qed.

(** An entry that needs translation: the call of [translateText] returns a
    value, which becomes the only element of [msgstr]. *)
Lemma fill_entry_translates (key : string) (e : entry) (w : Fill.world) :
  key ≠ "" → Fill.needs_translation e = Ok true →
  ∃ w1 t,
    Fill.translateText E (Fill.originalText e) Fill.RETRY_LIMIT
      (Fill.log (Fill.Translating key) w) = (w1, Some t)
    ∧ Fill.fill_entry E (key, e) w
      = (Fill.sleep Fill.REQUEST_DELAY (Fill.log (Fill.Translated t) w1),
         Ok (key, Entry (msgid e) (Some (Arr [t])))).
Proof.
  intros Hkey Hneeds.
  destruct (translateText_defined (Fill.originalText e) Fill.RETRY_LIMIT
              (Fill.log (Fill.Translating key) w)) as [t Ht];
    [unfold Fill.RETRY_LIMIT; lia |].
  destruct (Fill.translateText E (Fill.originalText e) Fill.RETRY_LIMIT
              (Fill.log (Fill.Translating key) w)) as [w1 r] eqn:Hrun.
  simpl in Ht. subst r. exists w1, t. split; [done |].
  unfold Fill.fill_entry, Fill.bind, Fill.effect, Fill.ret.
  destruct (decide (key = "")); [done |].
  rewrite Hneeds, Hrun.
  rewrite (written_msgstr_translated _ Fill.RETRY_LIMIT _ _ _
             ltac:(unfold Fill.RETRY_LIMIT; lia) Hrun).
  done.
Qed.

Lemma needs_translation_true (e : entry) :
  Fill.needs_translation e = Ok true ↔
    msgstr e = None ∨ msgstr e = Some (Str "")
    ∨ ∃ l, msgstr e = Some (Arr l) ∧ JS.blank (JS.join "" l).
Proof.
  unfold Fill.needs_translation.
  destruct (msgstr e) as [[s | l] |].
  - destruct s as [|a s]; simpl.
    + split; [auto | done].
    + split; [done |]. intros [? | [? | (l & ? & _)]]; done.
  - split.
    + intros [= Hb]. apply bool_decide_eq_true in Hb.
      apply trim_empty_iff_blank in Hb. eauto.
    + intros [? | [? | (l' & [= <-] & Hb)]]; [done | done |].
      f_equal. by apply bool_decide_eq_true, trim_empty_iff_blank.
  - split; [auto | done].
Qed.

Lemma needs_translation_false (e : entry) :
  Fill.needs_translation e = Ok false ↔
    ∃ l, msgstr e = Some (Arr l) ∧ ¬ JS.blank (JS.join "" l).
Proof.
  unfold Fill.needs_translation.
  destruct (msgstr e) as [[s | l] |].
  - destruct s as [|a s]; simpl; split; try done; intros (l & ? & _); done.
  - split.
    + intros [= Hb]. apply bool_decide_eq_false in Hb.
      exists l. split; [done |]. by rewrite <- trim_empty_iff_blank.
    + intros (l' & [= <-] & Hb). f_equal. apply bool_decide_eq_false.
      by rewrite trim_empty_iff_blank.
  - split; [done |]. intros (l & ? & _); done.
Qed.

(** C8.  For a non-header entry whose [msgstr] is missing or is a
    collection of lines, the fill loop calls [translateText] exactly when
    the collection is missing, empty, or white space only once joined (so
    that its trim is empty); an entry whose translated lines are not
    entirely blank is left as it is, and nothing happens for it. *)
Theorem fill_translates_exactly_untranslated (key : string) (e : entry)
    (w : Fill.world) :
  key ≠ "" →
  msgstr e = None ∨ (∃ l, msgstr e = Some (Arr l)) →
  let untranslated :=
    msgstr e = None ∨ msgstr e = Some (Arr [])
    ∨ ∃ l, msgstr e = Some (Arr l) ∧ JS.blank (JS.join "" l) in
  (untranslated ↔ JS.trim (JS.join "" (match msgstr e with
                                        | Some (Arr l) => l
                                        | _ => []
                                        end)) = "")
  ∧ (untranslated →
     ∃ w1 t rest,
       Fill.translateText E (Fill.originalText e) Fill.RETRY_LIMIT
         (Fill.log (Fill.Translating key) w) = (w1, Some t)
       ∧ Fill.fill_entry E (key, e) w
         = (Fill.sleep Fill.REQUEST_DELAY (Fill.log (Fill.Translated t) w1),
            Ok (key, Entry (msgid e) (Some (Arr [t]))))
       ∧ Fill.trace (Fill.fill_entry E (key, e) w).1
         = Fill.trace w ++ Fill.Log (Fill.Translating key) :: rest)
  ∧ (¬ untranslated → Fill.fill_entry E (key, e) w = (w, Ok (key, e))).
Proof.
  intros Hkey Hshape untranslated.
  assert (untranslated ↔ Fill.needs_translation e = Ok true) as Htrue.
  { rewrite needs_translation_true. unfold untranslated. split.
    - intros [? | [Hnil | ?]]; [auto | | auto].
      right. right. exists []. split; [done | constructor].
    - intros [? | [Hstr | ?]]; [auto | | auto].
      destruct Hshape as [Hnone | [l Hl]]; congruence. }
  split; [| split].
  - rewrite Htrue. unfold Fill.needs_translation.
    destruct Hshape as [-> | [l ->]]; [done |].
    split.
    + intros [= Hb]. by apply bool_decide_eq_true in Hb.
    + intros Hb. f_equal. by apply bool_decide_eq_true.
  - intros Hneeds%Htrue.
    destruct (fill_entry_translates key e w Hkey Hneeds)
      as (w1 & t & Hrun & Hfill).
    destruct (translateText_extends (Fill.originalText e) Fill.RETRY_LIMIT
                (Fill.log (Fill.Translating key) w)) as [rest Hrest].
    rewrite Hrun in Hrest. simpl in Hrest.
    exists w1, t. eexists. split; [done |]. split; [done |].
    rewrite Hfill. simpl. rewrite Hrest, <- !app_assoc. simpl. done.
  - intros Hnot. apply fill_entry_skips; [done |].
    apply needs_translation_false.
    destruct Hshape as [Hnone | [l Hl]].
    + destruct Hnot. by left.
    + exists l. split; [done |]. intros Hb. apply Hnot.
      right. right. by exists l.
Qed.

(** C1, as amended.  For every entry that the fill loop translates, whether
    or not its source text contains an embedded newline, the translated
    text is written back as the single element of [msgstr], embedded
    newlines included: the text is split at the newlines and joined with
    newlines again, which gives it back.  Source "A\nB" translated to
    "X\nY" yields the one-element [msgstr] holding "X\nY". *)
Theorem translated_text_is_one_msgstr_element (key : string) (e : entry)
    (w : Fill.world) :
  key ≠ "" → Fill.needs_translation e = Ok true →
  ∃ w1 t,
    Fill.translateText E (Fill.originalText e) Fill.RETRY_LIMIT
      (Fill.log (Fill.Translating key) w) = (w1, Some t)
    ∧ (Fill.fill_entry E (key, e) w).2
      = Ok (key, Entry (msgid e) (Some (Arr [t])))
    ∧ Fill.written_msgstr (Fill.originalText e) t = Ok [t]
    ∧ JS.join JS.NL (VStr <$> JS.split JS.LF (JS.text t)) = JS.text t.
Proof.
  intros Hkey Hneeds.
  destruct (fill_entry_translates key e w Hkey Hneeds)
    as (w1 & t & Hrun & Hfill).
  exists w1, t. rewrite Hfill. split; [done |]. split; [done |].
  split; [| apply join_split].
  apply (written_msgstr_translated _ Fill.RETRY_LIMIT _ _ _
           ltac:(unfold Fill.RETRY_LIMIT; lia) Hrun).
Qed.

(** A text that is not served from the cache and whose first request
    succeeds, when the cache file can be written. *)
Lemma translateText_first_success (text : string) (n : nat) (w : Fill.world)
    (dsts : list string) :
  Fill.cache w !! text = None →
  text ∉ JS.Object_prototype →
  Fill.axios_post E (Fill.requests w) (Fill.build_params E text w)
    = Fill.TransResult dsts →
  Fill.cache_write_fails E (S (Fill.requests w)) = false →
  Fill.translateText E text (S n) w
  = (Fill.writeFileSync Fill.CACHE_FILE
       (Fill.JSON_stringify
          (<[text := JS.trim (JS.join JS.NL (VStr <$> dsts))]> (Fill.cache w)))
       (Fill.set_cache
          (<[text := JS.trim (JS.join JS.NL (VStr <$> dsts))]> (Fill.cache w))
          (Fill.count_request
             (Fill.emit (Fill.Post (Fill.build_params E text w)) w))),
     Some (VStr (JS.trim (JS.join JS.NL (VStr <$> dsts))))).
Proof.
  intros Hmiss Hout Hpost Hdisk. unfold Fill.translateText.
  rewrite (get_undefined _ _ Hmiss Hout), attempts_S. cbv zeta.
  rewrite Hpost. unfold Fill.saveCache. simpl. by rewrite Hdisk.
Qed.

(** The requests of a call are all for its text and signed over it, and
    the only key of the cache that the call can write is its text. *)
Lemma attempts_requests_and_cache (text : string) (retries fuel attempt : nat)
    (w : Fill.world) :
  (∃ new,
     posts (Fill.trace (Fill.attempts E text retries fuel attempt w).1)
     = posts (Fill.trace w) ++ new
     ∧ Forall (about E text) new)
  ∧ (Fill.cache (Fill.attempts E text retries fuel attempt w).1 = Fill.cache w
     ∨ ∃ t, Fill.cache (Fill.attempts E text retries fuel attempt w).1
            = <[text := t]> (Fill.cache w)).
Proof.
  revert attempt w. induction fuel as [|fuel IH]; intros attempt w.
  - simpl. split; [| by left]. exists []. by rewrite app_nil_r.
  - rewrite attempts_S. cbv zeta. unfold Fill.saveCache.
    assert (about E text (Fill.build_params E text w)) as Habout by done.
    destruct (Fill.axios_post E _ _) as [| | dsts];
      [| | destruct (Fill.cache_write_fails E _); cbv iota].
    1,2: destruct (attempt =? retries)%nat;
      [ simpl; split; [| by left];
        exists [Fill.build_params E text w];
        rewrite !posts_app; simpl; rewrite !app_nil_r; split; [done |];
        by constructor
      | match goal with
        | |- context [Fill.attempts _ _ _ _ ?a ?w'] =>
            destruct (IH a w') as [(new & -> & Hnew) Hcache]
        end;
        split; [| exact Hcache];
        exists (Fill.build_params E text w :: new); simpl;
        rewrite !posts_app; simpl; rewrite !app_nil_r, <- app_assoc;
        split; [done |]; by constructor ].
    + destruct (attempt =? retries)%nat.
      * simpl. split; [| right; by eexists].
        exists [Fill.build_params E text w].
        rewrite !posts_app. simpl. rewrite !app_nil_r. split; [done |].
        by constructor.
      * match goal with
        | |- context [Fill.attempts _ _ _ _ ?a ?w'] =>
            destruct (IH a w') as [(new & -> & Hnew) Hcache]
        end.
        split.
        -- exists (Fill.build_params E text w :: new). simpl.
           rewrite !posts_app. simpl. rewrite !app_nil_r, <- app_assoc.
           split; [done |]. by constructor.
        -- right. destruct Hcache as [-> | [t ->]]; simpl.
           ++ by eexists.
           ++ exists t. apply insert_insert_eq.
    + simpl. split; [| right; by eexists].
      exists [Fill.build_params E text w].
      rewrite !posts_app. simpl. rewrite !app_nil_r. split; [done |].
      by constructor.
Qed.

Lemma translateText_requests_and_cache (text : string) (retries : nat)
    (w : Fill.world) :
  (∃ new,
     posts (Fill.trace (Fill.translateText E text retries w).1)
     = posts (Fill.trace w) ++ new
     ∧ Forall (about E text) new)
  ∧ (Fill.cache (Fill.translateText E text retries w).1 = Fill.cache w
     ∨ ∃ t, Fill.cache (Fill.translateText E text retries w).1
            = <[text := t]> (Fill.cache w)).
Proof.
  unfold Fill.translateText.
  destruct (JS.get (Fill.cache w) text) as [v |];
    [destruct (JS.truthy_value v) |];
    try apply attempts_requests_and_cache.
  simpl. split; [| by left]. exists [].
  rewrite posts_app. simpl. split; [done | constructor].
Qed.

(** C9.  For an entry whose [msgid] is an array of lines, the fill loop
    flattens the lines with no separator before it calls [translateText]:
    every request, its signature and the only cache key that can be written
    use that string; the extraction joins the same lines with a newline and
    uses that as the key.  Whenever the two joinings differ, which is
    whenever there are two lines or more, the key under which the fill
    looks up and caches the translation is not the key that the extraction
    emits for the entry, and the cache is left as it was under the
    extraction's key. *)
Theorem multiline_msgid_keys_differ (key : string) (lines : list value)
    (ms : option field) (w : Fill.world) (tr : gmap string string) :
  let e := Entry (Arr lines) ms in
  let flat := JS.join "" lines in
  let joined := JS.join JS.NL lines in
  key ≠ "" → Fill.needs_translation e = Ok true → flat ≠ joined →
  Fill.originalText e = flat
  ∧ (∃ w1 t,
       Fill.translateText E flat Fill.RETRY_LIMIT
         (Fill.log (Fill.Translating key) w) = (w1, Some t)
       ∧ Fill.fill_entry E (key, e) w
         = (Fill.sleep Fill.REQUEST_DELAY (Fill.log (Fill.Translated t) w1),
            Ok (key, Entry (Arr lines) (Some (Arr [t])))))
  ∧ (∃ new,
       posts (Fill.trace (Fill.fill_entry E (key, e) w).1)
       = posts (Fill.trace w) ++ new
       ∧ Forall (about E flat) new)
  ∧ (Fill.cache (Fill.fill_entry E (key, e) w).1 = Fill.cache w
     ∨ ∃ t, Fill.cache (Fill.fill_entry E (key, e) w).1
            = <[flat := t]> (Fill.cache w))
  ∧ Fill.cache (Fill.fill_entry E (key, e) w).1 !! joined
    = Fill.cache w !! joined
  ∧ Extract.english e = joined
  ∧ (∀ t, joined ≠ "" → t ≠ "" →
       Extract.extract_entry tr (key, Entry (Arr lines) (Some (Arr [VStr t])))
       = <[joined := t]> tr)
  ∧ (flat ≠ joined ↔ (2 ≤ length lines)%nat).
Proof.
  intros e flat joined Hkey Hneeds Hdiff.
  destruct (fill_entry_translates key e w Hkey Hneeds)
    as (w1 & t & Hrun & Hfill).
  change (Fill.originalText e) with flat in Hrun.
  destruct (translateText_requests_and_cache flat Fill.RETRY_LIMIT
              (Fill.log (Fill.Translating key) w))
    as [(new & Hposts & Hnew) Hcache].
  rewrite Hrun in Hposts, Hcache. simpl in Hposts, Hcache.
  rewrite posts_app in Hposts. simpl in Hposts. rewrite app_nil_r in Hposts.
  assert (Fill.cache (Fill.fill_entry E (key, e) w).1 = Fill.cache w
          ∨ ∃ t, Fill.cache (Fill.fill_entry E (key, e) w).1
                 = <[flat := t]> (Fill.cache w)) as Hcache'
    by (by rewrite Hfill).
  split; [done |]. split; [by exists w1, t |]. split.
  { exists new. rewrite Hfill. simpl. rewrite !posts_app. simpl.
    by rewrite !app_nil_r. }
  split; [exact Hcache' |]. split.
  { destruct Hcache' as [-> | [t' ->]]; [done |].
    by rewrite lookup_insert_ne. }
  split; [done |]. split.
  { intros t0 Hj%truthy_spec Ht%truthy_spec.
    unfold Extract.extract_entry.
    destruct (decide (key = "")); [done |].
    assert (Extract.english (Entry (Arr lines) (Some (Arr [VStr t0])))
            = joined) as -> by done.
    assert (Extract.chinese (Entry (Arr lines) (Some (Arr [VStr t0]))) = t0)
      as -> by done.
    by rewrite Hj, Ht. }
  split.
  - intros _. destruct (decide (2 ≤ length lines)%nat) as [? | Hshort];
      [done |].
    destruct Hdiff. apply join_single_or_less. lia.
  - apply join_empty_ne_join_NL.
Qed.

(** *** The header entry *)

Lemma mapM_cons {A B} (f : A → Fill.M B) (a : A) (l : list A) (w : Fill.world) :
  Fill.mapM f (a :: l) w
  = match f a w with
    | (w1, Ok b) =>
        match Fill.mapM f l w1 with
        | (w2, Ok bs) => (w2, Ok (b :: bs))
        | (w2, Throw x) => (w2, Throw x)
        end
    | (w1, Throw x) => (w1, Throw x)
    end.
Proof.
  simpl. unfold Fill.bind, Fill.ret.
  destruct (f a w) as [w1 [b | x]]; [| done].
  by destruct (Fill.mapM f l w1) as [w2 [bs | x]].
Qed.

Lemma fill_entry_key (kv kv' : string * entry) (w w' : Fill.world) :
  Fill.fill_entry E kv w = (w', Ok kv') →
  kv'.1 = kv.1 ∧ (kv.1 = "" → kv' = kv).
Proof.
  destruct kv as [key e]. cbn [fst].
  destruct (decide (key = "")) as [-> | Hkey].
  - rewrite fill_entry_header. by intros [= <- <-].
  - intros Hrun. split; [| done].
    destruct (Fill.needs_translation e) as [[|] | x] eqn:Hneeds.
    + destruct (fill_entry_translates key e w Hkey Hneeds)
        as (w1 & t & _ & Hfill).
      rewrite Hfill in Hrun. by injection Hrun as _ <-.
    + rewrite fill_entry_skips in Hrun by done. by injection Hrun as _ <-.
    + rewrite (fill_entry_throws _ _ _ x) in Hrun by done. done.
Qed.

Lemma fill_entries_headers_kept (c c' : context) (w w' : Fill.world) :
  Fill.mapM (Fill.fill_entry E) c w = (w', Ok c') → headers_kept c c'.
Proof.
  revert c' w w'. induction c as [|kv c IH]; intros c' w w'.
  - intros [= _ <-]. constructor.
  - rewrite mapM_cons.
    destruct (Fill.fill_entry E kv w) as [w1 [kv' | x]] eqn:Hkv; [| done].
    destruct (Fill.mapM (Fill.fill_entry E) c w1) as [w2 [c1 | x]] eqn:Hc;
      [| done].
    intros [= _ <-]. constructor; [by eapply fill_entry_key | by eapply IH].
Qed.

Lemma outcome_mapM_cons {A B} (f : A → Fill.M B) (a : A) (l : list A)
    (w : Fill.world) :
  Fill.outcome (Fill.mapM f (a :: l) w)
  = match f a w with
    | (w1, Ok _) => Fill.outcome (Fill.mapM f l w1)
    | (w1, Throw x) => (w1, Some x)
    end.
Proof.
  rewrite mapM_cons. destruct (f a w) as [w1 [b | x]]; [| done].
  by destruct (Fill.mapM f l w1) as [w2 [bs | x]].
Qed.

Lemma fill_entries_strip (c : context) (w : Fill.world) :
  Fill.outcome
    (Fill.mapM (Fill.fill_entry E) (filter (λ kv, kv.1 ≠ "") c) w)
  = Fill.outcome (Fill.mapM (Fill.fill_entry E) c w).
Proof.
  revert w. induction c as [|[key e] c IH]; intros w; [done |].
  destruct (decide (key = "")) as [-> | Hkey].
  - rewrite (filter_cons_False (λ kv : string * entry, kv.1 ≠ ""))
      by (simpl; auto).
    by rewrite outcome_mapM_cons, fill_entry_header, IH.
  - rewrite (filter_cons_True (λ kv : string * entry, kv.1 ≠ "")) by done.
    rewrite !outcome_mapM_cons.
    destruct (Fill.fill_entry E (key, e) w) as [w1 [kv' | x]]; [apply IH | done].
Qed.

Lemma outcome_fill_context (name : string) (c : context) (w : Fill.world) :
  Fill.outcome (Fill.fill_context E (name, c) w)
  = Fill.outcome (Fill.mapM (Fill.fill_entry E) c w).
Proof.
  unfold Fill.fill_context, Fill.bind, Fill.ret. simpl.
  by destruct (Fill.mapM (Fill.fill_entry E) c w) as [w1 [c' | x]].
Qed.

Lemma fill_catalog_headers_kept (po po' : catalog) (w w' : Fill.world) :
  Fill.fill_catalog E po w = (w', Ok po') → catalog_headers_kept po po'.
Proof.
  unfold Fill.fill_catalog. revert po' w w'.
  induction po as [|[name c] po IH]; intros po' w w'.
  - intros [= _ <-]. constructor.
  - rewrite mapM_cons. unfold Fill.fill_context at 1, Fill.bind, Fill.ret.
    simpl.
    destruct (Fill.mapM (Fill.fill_entry E) c w) as [w1 [c' | x]] eqn:Hc;
      [| done].
    destruct (Fill.mapM (Fill.fill_context E) po w1) as [w2 [po1 | x]] eqn:Hpo;
      [| done].
    intros [= _ <-]. constructor; [| by eapply IH].
    split; [done |]. by eapply fill_entries_headers_kept.
Qed.

Lemma fill_catalog_strip (po : catalog) (w : Fill.world) :
  Fill.outcome (Fill.fill_catalog E (strip_headers po) w)
  = Fill.outcome (Fill.fill_catalog E po w).
Proof.
  unfold Fill.fill_catalog, strip_headers. revert w.
  induction po as [|[name c] po IH]; intros w; [done |].
  rewrite fmap_cons, !outcome_mapM_cons. cbn [fst snd].
  pose proof (outcome_fill_context name c w) as Hfull.
  pose proof (outcome_fill_context name (filter (λ kv, kv.1 ≠ "") c) w)
    as Hstrip.
  rewrite fill_entries_strip, <- Hfull in Hstrip. clear Hfull.
  unfold Fill.outcome in Hstrip.
  destruct (Fill.fill_context E (name, c) w) as [w2 [c2 | x2]];
    match type of Hstrip with
    | ((?run).1, _) = _ => destruct run as [w1 [c1 | x1]]
    end; simpl in Hstrip; simplify_eq; [apply IH | done].
Qed.

End FillFacts.

Lemma inherited_name_is_served_as_cached_witness :
  Fill.translateText (H := Examples.libraries)
    (Examples.env Examples.provider_down) "constructor" Fill.RETRY_LIMIT
    (Examples.start ∅ ∅)
  = (Fill.World ∅ ∅ 0 [Fill.Log (Fill.UsingCache "constructor")],
     Some (VMember "constructor")).
Proof.
  destruct (inherited_name_is_served_as_cached (H := Examples.libraries)
              (Examples.env Examples.provider_down) "constructor"
              Fill.RETRY_LIMIT (Examples.start ∅ ∅)) as [Hrun _].
  - decide_by_computation.
  - reflexivity.
  - exact Hrun.
Defined.

Lemma failing_provider_returns_source_witness :
  ∃ w',
    Fill.translateText (H := Examples.libraries)
      (Examples.env Examples.provider_down) "Hello" Fill.RETRY_LIMIT
      (Examples.start ∅ ∅) = (w', Some (VStr "Hello"))
    ∧ Fill.requests w' = 3%nat
    ∧ net_view (Fill.trace w')
      = [inl "Hello"; inr 1000; inl "Hello"; inr 2000; inl "Hello"].
Proof.
  destruct (failing_provider_returns_source (H := Examples.libraries)
              (Examples.env Examples.provider_down) "Hello" Fill.RETRY_LIMIT
              (Examples.start ∅ ∅))
    as (w' & Hrun & Hreq & _ & _ & Hnet & _).
  - reflexivity.
  - decide_by_computation.
  - intros n r dsts _. discriminate.
  - unfold Fill.RETRY_LIMIT. lia.
  - exists w'. split; [exact Hrun |]. split; [exact Hreq | exact Hnet].
Defined.

Lemma cached_text_skips_provider_witness :
  Fill.translateText (H := Examples.libraries)
    (Examples.env Examples.provider_down) "Hello" Fill.RETRY_LIMIT
    (Examples.start {[ "Hello" := "你好" ]} ∅)
  = (Fill.log (Fill.UsingCache "Hello")
       (Examples.start {[ "Hello" := "你好" ]} ∅), Some (VStr "你好")).
Proof.
  apply (cached_text_skips_provider (H := Examples.libraries)
           (Examples.env Examples.provider_down) "Hello" "你好"
           Fill.RETRY_LIMIT (Examples.start {[ "Hello" := "你好" ]} ∅)).
  - vm_compute; reflexivity.
  - discriminate.
Defined.

Lemma empty_cached_value_contacts_provider_witness :
  Fill.translateText (H := Examples.libraries)
    (Examples.env (Examples.provider_answers ["你好"])) "Hello"
    Fill.RETRY_LIMIT (Examples.start {[ "Hello" := "" ]} ∅)
  = Fill.attempts (H := Examples.libraries)
      (Examples.env (Examples.provider_answers ["你好"])) "Hello"
      Fill.RETRY_LIMIT Fill.RETRY_LIMIT 1
      (Examples.start {[ "Hello" := "" ]} ∅).
Proof.
  apply (empty_cached_value_contacts_provider (H := Examples.libraries)
           (Examples.env (Examples.provider_answers ["你好"])) "Hello"
           Fill.RETRY_LIMIT (Examples.start {[ "Hello" := "" ]} ∅)).
  vm_compute; reflexivity.
Defined.

Lemma corrupt_cache_is_empty_witness :
  Fill.cache
    (Fill.load_cache (H := Examples.libraries)
       (Examples.start {[ "Hello" := "x" ]}
          {[ Fill.CACHE_FILE := File "{ not json" ]})).1 = ∅.
Proof.
  apply (corrupt_cache_is_empty (H := Examples.libraries)
           (Examples.env Examples.provider_down)
           (Examples.start {[ "Hello" := "x" ]}
              {[ Fill.CACHE_FILE := File "{ not json" ]}) "{ not json").
  - vm_compute; reflexivity.
  - vm_compute; reflexivity.
Defined.

(** C2 as stated fails: a key that is present with the empty string as its
    value does not stop the request, and the value returned is the
    provider's. *)
Lemma cached_empty_value_counterexample :
  ¬ (∀ (I : Fill.Imports) (E : Fill.Env) (text v : string) (retries : nat)
       (w : Fill.world),
       Fill.cache w !! text = Some v →
       (Fill.translateText E text retries w).2 = Some (VStr v)
       ∧ posts (Fill.trace (Fill.translateText E text retries w).1)
         = posts (Fill.trace w)).
Proof.
  intros Hclaim.
  destruct (Hclaim Examples.libraries
              (Examples.env (Examples.provider_answers ["你好"]))
              "Hello" "" Fill.RETRY_LIMIT
              (Examples.start {[ "Hello" := "" ]} ∅)) as [Hvalue _].
  - vm_compute; reflexivity.
  - vm_compute in Hvalue. discriminate Hvalue.
Qed.

Lemma fill_translates_exactly_untranslated_witness :
  Fill.fill_entry (H := Examples.libraries)
    (Examples.env Examples.provider_down) (Examples.translated "Hello" "你好")
    (Examples.start ∅ ∅)
  = (Examples.start ∅ ∅, Ok (Examples.translated "Hello" "你好")).
Proof.
  apply (fill_translates_exactly_untranslated (H := Examples.libraries)
           (Examples.env Examples.provider_down) "Hello"
           (Entry (Str "Hello") (Some (Arr [VStr "你好"])))
           (Examples.start ∅ ∅)).
  - discriminate.
  - right. by eexists.
  - intros [Hnone | [Hnil | (l & [= <-] & Hblank)]]; [done | done |].
    apply trim_empty_iff_blank in Hblank. vm_compute in Hblank.
    discriminate Hblank.
Defined.

Lemma translated_text_is_one_msgstr_element_witness :
  (Fill.fill_entry (H := Examples.libraries)
     (Examples.env (Examples.provider_answers ["X"; "Y"]))
     ("A" +:+ JS.NL +:+ "B",
      Entry (Str ("A" +:+ JS.NL +:+ "B")) (Some (Arr [])))
     (Examples.start ∅ ∅)).2
  = Ok ("A" +:+ JS.NL +:+ "B",
        Entry (Str ("A" +:+ JS.NL +:+ "B"))
          (Some (Arr [VStr ("X" +:+ JS.NL +:+ "Y")]))).
Proof.
  destruct (translated_text_is_one_msgstr_element (H := Examples.libraries)
              (Examples.env (Examples.provider_answers ["X"; "Y"]))
              ("A" +:+ JS.NL +:+ "B")
              (Entry (Str ("A" +:+ JS.NL +:+ "B")) (Some (Arr [])))
              (Examples.start ∅ ∅))
    as (w1 & t & Hrun & Hentry & _).
  - discriminate.
  - vm_compute; reflexivity.
  - rewrite Hentry. vm_compute in Hrun. injection Hrun as _ <-. reflexivity.
Defined.

Lemma multiline_msgid_keys_differ_witness :
  Fill.translateText (H := Examples.libraries)
    (Examples.env (Examples.provider_answers ["你好，世界"])) "Hello, world"
    Fill.RETRY_LIMIT
    (Fill.log (Fill.Translating "Hello, world") (Examples.start ∅ ∅))
  = (Fill.World {[ "Hello, world" := "你好，世界" ]}
       {[ Fill.CACHE_FILE := File "{}" ]} 1
       [Fill.Log (Fill.Translating "Hello, world");
        Fill.Post (Fill.Request "Hello, world" "en" "zh" "app" 1700000000000
                     "md5:appHello, world1700000000000secret");
        Fill.WriteFile Fill.CACHE_FILE],
     Some (VStr "你好，世界"))
  ∧ Extract.english
      (Entry (Arr [VStr "Hello, "; VStr "world"]) (Some (Arr [])))
    = "Hello, " +:+ JS.NL +:+ "world".
Proof.
  destruct (multiline_msgid_keys_differ (H := Examples.libraries)
              (Examples.env (Examples.provider_answers ["你好，世界"]))
              "Hello, world" [VStr "Hello, "; VStr "world"] (Some (Arr []))
              (Examples.start ∅ ∅) ∅)
    as (_ & (w1 & t & Hrun & _) & _ & _ & _ & Henglish & _).
  - discriminate.
  - vm_compute; reflexivity.
  - vm_compute. discriminate.
  - split; [| exact Henglish]. vm_compute; reflexivity.
Defined.

(** C1 as stated fails: the source "A\nB" has an embedded newline, the
    provider answers with the two segments "X" and "Y", and [msgstr] is not
    the two lines but one element. *)
Lemma multiline_not_split_counterexample :
  ¬ (∀ (I : Fill.Imports) (E : Fill.Env) (key : string) (e : entry)
       (w : Fill.world) (t : string),
       key ≠ "" → Fill.needs_translation e = Ok true →
       JS.includes (Fill.originalText e) JS.LF = true →
       (Fill.translateText E (Fill.originalText e) Fill.RETRY_LIMIT
          (Fill.log (Fill.Translating key) w)).2 = Some (VStr t) →
       (Fill.fill_entry E (key, e) w).2
       = Ok (key, Entry (msgid e) (Some (Arr (VStr <$> JS.split JS.LF t))))).
Proof.
  intros Hclaim.
  specialize (Hclaim Examples.libraries
                (Examples.env (Examples.provider_answers ["X"; "Y"]))
                ("A" +:+ JS.NL +:+ "B")
                (Entry (Str ("A" +:+ JS.NL +:+ "B")) (Some (Arr [])))
                (Examples.start ∅ ∅) ("X" +:+ JS.NL +:+ "Y")).
  assert (Ok ("A" +:+ JS.NL +:+ "B",
              Entry (Str ("A" +:+ JS.NL +:+ "B"))
                (Some (Arr [VStr ("X" +:+ JS.NL +:+ "Y")])))
          = Ok ("A" +:+ JS.NL +:+ "B",
                Entry (Str ("A" +:+ JS.NL +:+ "B"))
                  (Some (Arr [VStr "X"; VStr "Y"])))) as Heq.
  { etrans; [| etrans; [apply Hclaim |]].
    - vm_compute; reflexivity.
    - discriminate.
    - vm_compute; reflexivity.
    - vm_compute; reflexivity.
    - vm_compute; reflexivity.
    - vm_compute; reflexivity. }
  vm_compute in Heq. discriminate Heq.
Qed.

(** ** Both scripts *)

(** C6.  The reserved entry with the empty source identifier is skipped by
    both workflows.  Extraction: an iteration on it leaves the mapping as
    it is, the empty string is never a key of the output, and the output
    is that of the catalog without its header entries.  Fill: an iteration
    on it does nothing at all, so a run leaves the same state behind with
    or without the header entries (no request, no log line, no cache
    entry is due to them), and in the catalog that a run returns every
    header entry is what it was. *)
Theorem header_entry_skipped `{Extract.Imports} `{Fill.Imports}
    (E : Fill.Env) (po : catalog) (w : Fill.world) (e : entry)
    (tr : gmap string string) :
  Extract.extract_entry tr ("", e) = tr
  ∧ Extract.extract_catalog po !! "" = None
  ∧ Extract.extract_catalog (strip_headers po) = Extract.extract_catalog po
  ∧ (∀ fs inputPath m,
       Extract.processPoPath fs inputPath = Ok m → m !! "" = None)
  ∧ Fill.fill_entry E ("", e) w = (w, Ok ("", e))
  ∧ Fill.outcome (Fill.fill_catalog E (strip_headers po) w)
    = Fill.outcome (Fill.fill_catalog E po w)
  ∧ (∀ w' po',
       Fill.fill_catalog E po w = (w', Ok po') → catalog_headers_kept po po').
Proof.
  split; [apply extract_entry_header |].
  split; [apply extract_catalog_no_empty_key |].
  split; [apply extract_catalog_strip |].
  split; [intros fs inputPath m; apply processPoPath_no_empty_key |].
  split; [apply fill_entry_header |].
  split; [apply fill_catalog_strip |].
  intros w' po'. apply fill_catalog_headers_kept.
Qed.

(** ** The two scripts on small inputs *)

(** A directory with [a.po] holding "Hello" and [b.po] holding "Bye". *)
Example extraction_of_two_files :
  Extract.processPoPath (H := Examples.parser) (Examples.locales "zh" "bye")
    "locales"
  = Ok {[ "Hello" := "你好"; "Bye" := "再见" ]}.
Proof. vm_compute; reflexivity. Qed.

(** A single file in which one entry has an empty translation. *)
Example extraction_omits_untranslated :
  Extract.processPoPath (H := Examples.parser)
    {[ "messages.po" := File "partly" ]} "messages.po"
  = Ok {[ "Hello" := "你好" ]}.
Proof. vm_compute; reflexivity. Qed.

Example extraction_rejects_other_files :
  Extract.processPoPath (H := Examples.parser)
    {[ "messages.txt" := File "partly" ]} "messages.txt"
  = Throw (InvalidPath "messages.txt").
Proof. vm_compute; reflexivity. Qed.

(** The fill script on a catalog with one untranslated entry and no cache
    file: one request, the cache and the output file are written. *)
Example fill_run :
  let w := (Fill.script (H := Examples.libraries)
              (Examples.env (Examples.provider_answers ["你好"]))
              (Examples.start ∅ {[ Fill.INPUT_PO_FILE := File "todo" ]})).1 in
  Fill.cache w = {[ "Hello" := "你好" ]}
  ∧ Fill.requests w = 1%nat
  ∧ net_view (Fill.trace w) = [inl "Hello"; inr 1000]
  ∧ Fill.files w !! Fill.OUTPUT_PO_FILE = Some (File "")
  ∧ last (Fill.trace w) = Some (Fill.Log (Fill.Done Fill.OUTPUT_PO_FILE)).
Proof. vm_compute. repeat split; reflexivity. Qed.

(** With the provider down the run still ends, and the source text is what
    is written back. *)
Example fill_run_provider_down :
  let w := (Fill.script (H := Examples.libraries)
              (Examples.env Examples.provider_down)
              (Examples.start ∅ {[ Fill.INPUT_PO_FILE := File "todo" ]})).1 in
  Fill.cache w = ∅
  ∧ Fill.requests w = 3%nat
  ∧ net_view (Fill.trace w)
    = [inl "Hello"; inr 1000; inl "Hello"; inr 2000; inl "Hello"; inr 1000]
  ∧ last (Fill.trace w) = Some (Fill.Log (Fill.Done Fill.OUTPUT_PO_FILE)).
Proof. vm_compute. repeat split; reflexivity. Qed.

(** An entry whose source text names a member of [Object.prototype]: with
    an empty cache no request is made, and the member is what [msgstr]
    gets. *)
Example fill_entry_inherited_name :
  Fill.fill_entry (H := Examples.libraries)
    (Examples.env Examples.provider_down)
    ("constructor", Entry (Str "constructor") (Some (Arr [])))
    (Examples.start ∅ ∅)
  = (Fill.World ∅ ∅ 0
       [Fill.Log (Fill.Translating "constructor");
        Fill.Log (Fill.UsingCache "constructor");
        Fill.Log (Fill.Translated (VMember "constructor"));
        Fill.Sleep 1000],
     Ok ("constructor",
         Entry (Str "constructor") (Some (Arr [VMember "constructor"])))).
Proof. vm_compute; reflexivity. Qed.

(** With the provider answering and the cache file not writable, the
    answer is dropped and the source text is written back. *)
Example fill_entry_unsaved :
  let r := Fill.fill_entry (H := Examples.libraries)
             (Samples.full_disk (Examples.provider_answers ["你好"]))
             Samples.greeting (Examples.start ∅ ∅) in
  r.2 = Ok ("Hello", Entry (Str "Hello") (Some (Arr [VStr "Hello"])))
  ∧ Fill.requests r.1 = 3%nat
  ∧ Fill.cache r.1 = {[ "Hello" := "你好" ]}
  ∧ Fill.files r.1 = ∅.
Proof. vm_compute. repeat split; reflexivity. Qed.

(** ** Further properties of the string primitives *)

Section MoreJSFacts.

Lemma split_without_separator (c : ascii) (s : string) :
  JS.includes s c = false → JS.split c s = [s].
Proof.
  induction s as [|a s IH]; [done |]. simpl.
  destruct (Ascii.eqb a c); [done |]. simpl. intros Hs. by rewrite IH.
Qed.

Lemma split_append_separator (c : ascii) (x r : string) :
  JS.includes x c = false →
  JS.split c (x +:+ String c r) = x :: JS.split c r.
Proof.
  induction x as [|a x IH]; intros Hx.
  - rewrite append_nil_l. simpl. by rewrite Ascii.eqb_refl.
  - simpl in Hx. rewrite append_cons. simpl.
    destruct (Ascii.eqb a c); [done |]. simpl in Hx. by rewrite IH.
Qed.

(** X1.  Joining lines with a newline and splitting at the newlines gives
    the lines back, as long as there is at least one line and no line has a
    newline of its own. *)
Theorem split_join_lines (c : ascii) (l : list string) :
  l ≠ [] → Forall (λ x, JS.includes x c = false) l →
  JS.split c (JS.join (String c "") (VStr <$> l)) = l.
Proof.
  intros Hne Hall. induction Hall as [|x l Hx Hall IH]; [done |].
  destruct l as [|y l].
  - simpl. by apply split_without_separator.
  - rewrite fmap_cons, join_cons by done. simpl JS.text.
    rewrite append_cons, append_nil_l.
    rewrite split_append_separator by done. f_equal. by apply IH.
Qed.

Lemma split_join_lines_witness :
  JS.split JS.LF (JS.join JS.NL (VStr <$> ["X"; ""; "Y"])) = ["X"; ""; "Y"].
Proof.
  apply (split_join_lines JS.LF ["X"; ""; "Y"]); [done |].
  repeat constructor.
Defined.

(** *** [trim] is idempotent *)

Lemma blank_app (s t : string) : JS.blank s → JS.blank t → JS.blank (s +:+ t).
Proof.
  induction 1 as [|w s Hw _ IH]; intros Ht; [done |].
  rewrite append_assoc. constructor; auto.
Qed.

Lemma blankb_spec (s : string) : JS.blankb s = true ↔ JS.blank s.
Proof.
  unfold JS.blankb. rewrite negb_true_iff, truthy_false.
  split; [apply trimStart_blank | apply blank_trimStart].
Qed.

(** What [trimEnd] cuts off is white space. *)
Lemma trimEnd_cut (s : string) :
  ∃ b, s = JS.trimEnd s +:+ b ∧ JS.blank b.
Proof.
  induction s as [|a r (b & Hr & Hb)]; [exists ""; split; [done | constructor] |].
  change (JS.trimEnd (String a r))
    with (if JS.blankb (String a r) then "" else String a (JS.trimEnd r)).
  destruct (JS.blankb (String a r)) eqn:Hblank.
  - exists (String a r). split; [done |]. by apply blankb_spec.
  - exists b. split; [| done]. rewrite append_cons. by rewrite <- Hr.
Qed.

Lemma trimEnd_idemp (s : string) : JS.trimEnd (JS.trimEnd s) = JS.trimEnd s.
Proof.
  induction s as [|a r IH]; [done |].
  change (JS.trimEnd (String a r))
    with (if JS.blankb (String a r) then "" else String a (JS.trimEnd r)).
  destruct (JS.blankb (String a r)) eqn:Hblank; [done |].
  change (JS.trimEnd (String a (JS.trimEnd r)))
    with (if JS.blankb (String a (JS.trimEnd r)) then ""
          else String a (JS.trimEnd (JS.trimEnd r))).
  destruct (JS.blankb (String a (JS.trimEnd r))) eqn:Hcut;
    [| by rewrite IH].
  apply blankb_spec in Hcut.
  destruct (trimEnd_cut r) as (b & Hr & Hb).
  assert (JS.blank (String a r)) as Hall.
  { rewrite Hr, <- append_cons. by apply blank_app. }
  apply blankb_spec in Hall. congruence.
Qed.

Lemma trimStart_length (s : string) :
  (String.length (JS.trimStart s) ≤ String.length s)%nat.
Proof.
  remember (String.length s) as n eqn:Hn. revert s Hn.
  induction (lt_wf n) as [n _ IH]; intros s ->.
  destruct (trimStart_step s) as [(w & r & Hw & -> & Hr & Hlt) | Hid].
  - rewrite Hr. specialize (IH _ Hlt r eq_refl). lia.
  - by rewrite Hid.
Qed.

Lemma trimStart_trimEnd (u : string) :
  JS.trimStart u = u → JS.trimStart (JS.trimEnd u) = JS.trimEnd u.
Proof.
  intros Hu.
  destruct (trimStart_step (JS.trimEnd u))
    as [(w & r & Hw & Hcut & _ & _) | Hid]; [| done].
  destruct (trimEnd_cut u) as (b & Hsplit & _).
  rewrite Hcut, append_assoc in Hsplit.
  pose proof (trimStart_length (r +:+ b)) as Hlen.
  rewrite <- (trimStart_white_space w) in Hlen by done.
  rewrite <- Hsplit, Hu in Hlen. rewrite Hsplit in Hlen at 1.
  rewrite length_append in Hlen.
  assert (String.length w ≠ 0)%nat; [| lia].
  unfold JS.white_space in Hw. rewrite !elem_of_cons, elem_of_nil in Hw.
  repeat destruct Hw as [-> | Hw]; done.
Qed.

(** Trimming twice is trimming once. *)
Lemma trim_idempotent (s : string) : JS.trim (JS.trim s) = JS.trim s.
Proof.
  unfold JS.trim.
  rewrite (trimStart_trimEnd (JS.trimStart s)) by apply trimStart_idemp.
  apply trimEnd_idemp.
Qed.

End MoreJSFacts.

(** ** Further properties of [translateText] *)

Section MoreTranslateFacts.
Context `{Fill.Imports} (E : Fill.Env).

Lemma build_params_request_at (text : string) (w : Fill.world) :
  Fill.build_params E text w = request_at E text (Fill.requests w).
Proof. reflexivity. Qed.

(** The loop when the first [j] attempts fail and the next one succeeds
    and is saved. *)
Lemma attempts_first_success (text : string) (retries fuel attempt j : nat)
    (w : Fill.world) (dsts : list string) :
  (attempt + fuel = retries + 1)%nat → (j < fuel)%nat →
  (∀ i, (i < j)%nat → fails_at E text (Fill.requests w + i)) →
  Fill.axios_post E (Fill.requests w + j)
    (request_at E text (Fill.requests w + j)) = Fill.TransResult dsts →
  Fill.cache_write_fails E (Fill.requests w + S j) = false →
  ∃ w',
    Fill.attempts E text retries fuel attempt w
      = (w', Some (VStr (JS.trim (JS.join JS.NL (VStr <$> dsts)))))
    ∧ Fill.requests w' = (Fill.requests w + S j)%nat
    ∧ net_view (Fill.trace w')
      = net_view (Fill.trace w) ++ retry_schedule text attempt (S j)
    ∧ Fill.cache w'
      = <[text := JS.trim (JS.join JS.NL (VStr <$> dsts))]> (Fill.cache w)
    ∧ Fill.files w'
      = <[Fill.CACHE_FILE :=
            File (Fill.JSON_stringify
                    (<[text := JS.trim (JS.join JS.NL (VStr <$> dsts))]>
                       (Fill.cache w)))]>
          (Fill.files w).
Proof.
  revert fuel attempt w.
  induction j as [|j IH]; intros fuel attempt w Hsum Hlt Hfail Hpost Hdisk.
  - destruct fuel as [|fuel]; [lia |].
    rewrite attempts_S. cbv zeta. rewrite build_params_request_at.
    rewrite Nat.add_0_r in Hpost. rewrite Hpost.
    replace (Fill.requests w + 1)%nat with (S (Fill.requests w)) in Hdisk
      by lia.
    unfold Fill.saveCache. simpl Fill.requests. rewrite Hdisk.
    eexists. split; [done |]. simpl.
    rewrite <- !app_assoc, !net_view_app. simpl.
    repeat split; try done. lia.
  - destruct fuel as [|fuel]; [lia |].
    rewrite attempts_S. cbv zeta. rewrite build_params_request_at.
    pose proof (Hfail 0%nat ltac:(lia)) as Hfirst.
    rewrite Nat.add_0_r in Hfirst. unfold fails_at in Hfirst.
    destruct (Nat.eqb_spec attempt retries) as [? | _]; [lia |].
    destruct (Fill.axios_post E (Fill.requests w)
                (request_at E text (Fill.requests w))) as [| | d] eqn:Hnow;
      [| | by destruct (Hfirst d)].
    all: match goal with
         | |- context [Fill.attempts _ _ _ _ ?a ?w0] =>
             destruct (IH fuel a w0) as (w' & -> & Hreq & Hnet & Hc & Hf);
               [lia | lia
               | intros i Hi;
                 replace (Fill.requests w0 + i)%nat
                   with (Fill.requests w + S i)%nat by (simpl; lia);
                 apply Hfail; lia
               | replace (Fill.requests w0 + j)%nat
                   with (Fill.requests w + S j)%nat by (simpl; lia);
                 exact Hpost
               | replace (Fill.requests w0 + S j)%nat
                   with (Fill.requests w + S (S j))%nat by (simpl; lia);
                 exact Hdisk
               |]
         end.
    all: exists w'; split; [done |].
    all: rewrite Hreq, Hnet, Hc, Hf; simpl.
    all: rewrite <- !app_assoc, !net_view_app; simpl.
    all: rewrite <- ?app_assoc; simpl.
    all: repeat split; try done; lia.
Qed.

(** X2.  For a text that is not in the cache and does not name a member of
    [Object.prototype]: when the first [j] requests get no result, request
    [j + 1] is still within the limit and gets one, and the cache file can
    then be written, [translateText] returns the segments joined with
    newlines and trimmed (a value on which a further [trim] changes
    nothing), after exactly [j + 1] requests and the waits 1000, 2000, ...
    between them; it stores that value under the text and rewrites the
    cache file with the whole new cache. *)
Theorem translation_succeeds_after_failures (text : string)
    (retries j : nat) (w : Fill.world) (dsts : list string) :
  Fill.cache w !! text = None → text ∉ JS.Object_prototype →
  (j < retries)%nat →
  (∀ i, (i < j)%nat → fails_at E text (Fill.requests w + i)) →
  Fill.axios_post E (Fill.requests w + j)
    (request_at E text (Fill.requests w + j)) = Fill.TransResult dsts →
  Fill.cache_write_fails E (Fill.requests w + S j) = false →
  let t := JS.trim (JS.join JS.NL (VStr <$> dsts)) in
  ∃ w',
    Fill.translateText E text retries w = (w', Some (VStr t))
    ∧ JS.trim t = t
    ∧ Fill.requests w' = (Fill.requests w + S j)%nat
    ∧ net_view (Fill.trace w')
      = net_view (Fill.trace w) ++ retry_schedule text 1 (S j)
    ∧ sleeps (Fill.trace w')
      = sleeps (Fill.trace w)
        ++ ((λ k : nat, Fill.RETRY_DELAY_BASE * 2 ^ (Z.of_nat k - 1))
            <$> seq 1 j)
    ∧ Fill.cache w' = <[text := t]> (Fill.cache w)
    ∧ Fill.files w' !! Fill.CACHE_FILE
      = Some (File (Fill.JSON_stringify (Fill.cache w'))).
Proof.
  intros Hmiss Hout Hlt Hfail Hpost Hdisk t. unfold Fill.translateText.
  rewrite (get_undefined _ _ Hmiss Hout).
  destruct (attempts_first_success text retries retries 1 j w dsts)
    as (w' & Hrun & Hreq & Hnet & Hcache & Hfiles); [lia | done..|].
  exists w'. split; [done |]. split; [apply trim_idempotent |].
  split; [done |]. split; [done |]. split.
  { rewrite !sleeps_net_view, Hnet, omap_app, retry_schedule_sleeps.
    simpl. by rewrite Nat.sub_0_r. }
  split; [done |]. rewrite Hfiles, Hcache. apply lookup_insert_eq.
Qed.

(** X3.  Once such a text has been translated and saved with a non-empty
    result, the next call for it, with whatever retry limit, returns the
    same value from the cache and makes no request. *)
Theorem translation_is_memoised (text : string) (retries retries' j : nat)
    (w : Fill.world) (dsts : list string) :
  Fill.cache w !! text = None → text ∉ JS.Object_prototype →
  (j < retries)%nat →
  (∀ i, (i < j)%nat → fails_at E text (Fill.requests w + i)) →
  Fill.axios_post E (Fill.requests w + j)
    (request_at E text (Fill.requests w + j)) = Fill.TransResult dsts →
  Fill.cache_write_fails E (Fill.requests w + S j) = false →
  JS.trim (JS.join JS.NL (VStr <$> dsts)) ≠ "" →
  let first := Fill.translateText E text retries w in
  let second := Fill.translateText E text retries' first.1 in
  second.2 = first.2
  ∧ first.2 = Some (VStr (JS.trim (JS.join JS.NL (VStr <$> dsts))))
  ∧ posts (Fill.trace second.1) = posts (Fill.trace first.1)
  ∧ Fill.requests second.1 = Fill.requests first.1
  ∧ Fill.cache second.1 = Fill.cache first.1
  ∧ Fill.files second.1 = Fill.files first.1.
Proof.
  intros Hmiss Hout Hlt Hfail Hpost Hdisk Ht first second.
  assert (∃ w', first
                = (w', Some (VStr (JS.trim (JS.join JS.NL (VStr <$> dsts)))))
                ∧ Fill.cache w' !! text
                  = Some (JS.trim (JS.join JS.NL (VStr <$> dsts))))
    as (w' & Hfirst & Hhit).
  { unfold first, Fill.translateText. rewrite (get_undefined _ _ Hmiss Hout).
    destruct (attempts_first_success text retries retries 1 j w dsts)
      as (w' & Hrun & _ & _ & Hcache & _); [lia | done..|].
    exists w'. split; [done |]. rewrite Hcache. apply lookup_insert_eq. }
  unfold second. rewrite Hfirst. simpl.
  unfold Fill.translateText. rewrite (get_own _ _ _ Hhit).
  apply truthy_spec in Ht. cbn [JS.truthy_value]. rewrite Ht. simpl.
  rewrite posts_app. simpl. by rewrite app_nil_r.
Qed.

(** The loop never runs more often than [fuel] allows, and every
    iteration is one request. *)
Lemma attempts_bound (text : string) (retries fuel attempt : nat)
    (w : Fill.world) :
  (Fill.requests w ≤ Fill.requests (Fill.attempts E text retries fuel attempt w).1
   ≤ Fill.requests w + fuel)%nat
  ∧ (length (posts (Fill.trace (Fill.attempts E text retries fuel attempt w).1))
     + Fill.requests w
     = length (posts (Fill.trace w))
       + Fill.requests (Fill.attempts E text retries fuel attempt w).1)%nat.
Proof.
  revert attempt w. induction fuel as [|fuel IH]; intros attempt w.
  - simpl. lia.
  - rewrite attempts_S. cbv zeta. unfold Fill.saveCache.
    destruct (Fill.axios_post E _ _) as [| | dsts];
      [| | destruct (Fill.cache_write_fails E _); cbv iota].
    1,2,3: destruct (attempt =? retries)%nat;
      [ simpl; rewrite !posts_app, !length_app; simpl; lia
      | match goal with
        | |- context [Fill.attempts _ _ _ _ ?a ?w'] =>
            destruct (IH a w') as [Hreq Hposts];
            simpl in Hreq, Hposts;
            rewrite !posts_app, !length_app in Hposts; simpl in Hposts
        end; lia ].
    simpl. rewrite !posts_app, !length_app. simpl. lia.
Qed.

(** X4.  Whatever the provider does, one call of [translateText] makes at
    most [retries] requests, and the requests are all it counts. *)
Theorem translateText_request_bound (text : string) (retries : nat)
    (w : Fill.world) :
  (Fill.requests w ≤ Fill.requests (Fill.translateText E text retries w).1
   ≤ Fill.requests w + retries)%nat
  ∧ (length (posts (Fill.trace (Fill.translateText E text retries w).1))
     + Fill.requests w
     = length (posts (Fill.trace w))
       + Fill.requests (Fill.translateText E text retries w).1)%nat.
Proof.
  unfold Fill.translateText.
  destruct (JS.get (Fill.cache w) text) as [v |];
    [destruct (JS.truthy_value v) |];
    try apply attempts_bound.
  simpl. rewrite posts_app, length_app. simpl. lia.
Qed.

(** What the loop does to the cache and to the disk: nothing; or the
    value that it returns is stored and the file rewritten; or a value was
    stored in memory, the file could not be written, and the text is
    returned. *)
Lemma attempts_write_through (text : string) (retries fuel attempt : nat)
    (w : Fill.world) :
  (attempt + fuel = retries + 1)%nat →
  let r := Fill.attempts E text retries fuel attempt w in
  (Fill.cache r.1 = Fill.cache w ∧ Fill.files r.1 = Fill.files w
   ∧ (r.2 = Some (VStr text) ∨ r.2 = None))
  ∨ (∃ t, r.2 = Some (VStr t)
          ∧ Fill.cache r.1 = <[text := t]> (Fill.cache w)
          ∧ Fill.files r.1
            = <[Fill.CACHE_FILE := File (Fill.JSON_stringify (Fill.cache r.1))]>
                (Fill.files w))
  ∨ (∃ t, r.2 = Some (VStr text)
          ∧ Fill.cache r.1 = <[text := t]> (Fill.cache w)
          ∧ Fill.files r.1 = Fill.files w).
Proof.
  revert attempt w. induction fuel as [|fuel IH]; intros attempt w Hsum r.
  - left. simpl. auto.
  - subst r. rewrite attempts_S. cbv zeta. unfold Fill.saveCache.
    destruct (Fill.axios_post E _ _) as [| | dsts];
      [| | destruct (Fill.cache_write_fails E _); cbv iota].
    1,2: destruct (Nat.eqb_spec attempt retries) as [Heq | Hne];
      [ left; simpl; auto
      | match goal with
        | |- context [Fill.attempts _ _ _ _ ?a ?w'] => apply (IH a w'); lia
        end ].
    + destruct (Nat.eqb_spec attempt retries) as [Heq | Hne].
      * right. right. eexists. simpl. done.
      * match goal with
        | |- context [Fill.attempts _ _ _ _ ?a ?w'] =>
            destruct (attempts_defined E text retries fuel a w')
              as [t0 Hdef]; [lia | lia |];
            destruct (IH a w' ltac:(lia))
              as [(Hc & Hf & Hr) | [(t & Hr & Hc & Hf) | (t & Hr & Hc & Hf)]]
        end.
        -- right. right. eexists. split; [| split; [exact Hc | exact Hf]].
           destruct Hr as [Hr | Hr]; [done | congruence].
        -- right. left. exists t. split; [done |]. split; [| exact Hf].
           rewrite Hc. simpl. apply insert_insert_eq.
        -- right. right. exists t. split; [done |]. split; [| exact Hf].
           rewrite Hc. simpl. apply insert_insert_eq.
    + right. left. eexists. simpl. done.
Qed.

(** X5.  What one call of [translateText] does to the cache and to the
    disk is one of three things.  It leaves both as they are.  Or it sets
    the one key [text] to the string that it returns and rewrites the cache
    file, and only that file, with the whole new cache.  Or, when the
    provider answered and the cache file could not be written, the key
    [text] is set in memory, no file is written, and the text itself is
    returned.  No other key is changed and no key is ever removed. *)
Theorem translateText_writes_through (text : string) (retries : nat)
    (w : Fill.world) :
  let r := Fill.translateText E text retries w in
  ((Fill.cache r.1 = Fill.cache w ∧ Fill.files r.1 = Fill.files w)
   ∨ (∃ t, r.2 = Some (VStr t)
           ∧ Fill.cache r.1 = <[text := t]> (Fill.cache w)
           ∧ Fill.files r.1
             = <[Fill.CACHE_FILE :=
                   File (Fill.JSON_stringify (Fill.cache r.1))]>
                 (Fill.files w))
   ∨ (∃ t, r.2 = Some (VStr text)
           ∧ Fill.cache r.1 = <[text := t]> (Fill.cache w)
           ∧ Fill.files r.1 = Fill.files w))
  ∧ (∀ k, k ≠ text → Fill.cache r.1 !! k = Fill.cache w !! k)
  ∧ (∀ k, is_Some (Fill.cache w !! k) → is_Some (Fill.cache r.1 !! k))
  ∧ (∀ p, p ≠ Fill.CACHE_FILE → Fill.files r.1 !! p = Fill.files w !! p).
Proof.
  intros r.
  assert ((Fill.cache r.1 = Fill.cache w ∧ Fill.files r.1 = Fill.files w)
          ∨ (∃ t, r.2 = Some (VStr t)
                  ∧ Fill.cache r.1 = <[text := t]> (Fill.cache w)
                  ∧ Fill.files r.1
                    = <[Fill.CACHE_FILE :=
                          File (Fill.JSON_stringify (Fill.cache r.1))]>
                        (Fill.files w))
          ∨ (∃ t, r.2 = Some (VStr text)
                  ∧ Fill.cache r.1 = <[text := t]> (Fill.cache w)
                  ∧ Fill.files r.1 = Fill.files w)) as Hcases.
  { unfold r.
    destruct (translateText_cases E text retries w)
      as [(v & _ & _ & ->) | [(_ & _ & ->) | (_ & ->)]];
      [by left | by left |].
    destruct (attempts_write_through text retries retries 1 w ltac:(lia))
      as [(Hc & Hf & _) | [Hsaved | Hunsaved]]; auto. }
  split; [exact Hcases |].
  assert (∀ t k, is_Some (Fill.cache w !! k) →
                 is_Some (<[text := t]> (Fill.cache w) !! k)) as Hkeeps.
  { intros t k Hk. destruct (decide (text = k)) as [-> | Hne].
    - rewrite lookup_insert_eq. by eexists.
    - by rewrite lookup_insert_ne. }
  destruct Hcases as [[Hc Hf] | [(t & _ & Hc & Hf) | (t & _ & Hc & Hf)]];
    rewrite Hc, Hf.
  - done.
  - split; [intros k Hk; by rewrite lookup_insert_ne |].
    split; [apply Hkeeps | intros p Hp; by rewrite lookup_insert_ne].
  - split; [intros k Hk; by rewrite lookup_insert_ne |].
    split; [apply Hkeeps | done].
Qed.

(** X6.  [translateText] yields [undefined] exactly when it is called with
    a retry limit of 0 for a text that the cache does not serve, that is,
    a text for which the cache holds no non-empty value and which is not
    read from [Object.prototype]; nothing happens in that case.  With a
    limit of at least 1 it always returns a value: a string, or for a name
    that is read from [Object.prototype] the member of that name. *)
Theorem translateText_undefined_iff (text : string) (retries : nat)
    (w : Fill.world) :
  ((Fill.translateText E text retries w).2 = None ↔
     retries = 0%nat
     ∧ (¬ ∃ v, Fill.cache w !! text = Some v ∧ v ≠ "")
     ∧ ¬ (Fill.cache w !! text = None ∧ text ∈ JS.Object_prototype))
  ∧ ((Fill.translateText E text retries w).2 = None →
     (Fill.translateText E text retries w).1 = w)
  ∧ ((1 ≤ retries)%nat →
     ∃ t, (Fill.translateText E text retries w).2 = Some t
          ∧ ∀ name, t = VMember name →
              name = text ∧ text ∈ JS.Object_prototype
              ∧ Fill.cache w !! text = None).
Proof.
  split; [| split].
  - destruct (translateText_cases E text retries w)
      as [(v & Hv & Hne & ->) | [(Hnone & Hin & ->) | (Hloop & ->)]]; simpl.
    + split; [done |]. intros (_ & Hserved & _). destruct Hserved. eauto.
    + split; [done |]. intros (_ & _ & Hserved). by destruct Hserved.
    + assert ((¬ ∃ v, Fill.cache w !! text = Some v ∧ v ≠ "")
              ∧ ¬ (Fill.cache w !! text = None ∧ text ∈ JS.Object_prototype))
        as Hnot.
      { destruct Hloop as [Hempty | [Hnone Hout]].
        - split; [intros (v & Hv & Hne) | intros [Hnone _]]; congruence.
        - split; [intros (v & Hv & Hne); congruence | intros [_ Hin]; done]. }
      destruct retries as [|n].
      * split; [done | done].
      * destruct (attempts_defined E text (S n) (S n) 1 w) as [t ->];
          [lia | lia |].
        split; [done | intros [? _]; done].
  - destruct (translateText_cases E text retries w)
      as [(v & _ & _ & ->) | [(_ & _ & ->) | (_ & ->)]]; simpl; [done .. |].
    destruct retries as [|n]; [done |].
    destruct (attempts_defined E text (S n) (S n) 1 w) as [t ->];
      [lia | lia | done].
  - intros Hpos.
    destruct (translateText_defined E text retries w Hpos) as [t Ht].
    exists t. split; [done |]. intros name ->.
    destruct (translateText_member E text name retries w Hpos Ht)
      as (-> & Hin & Hnone & _).
    done.
Qed.

(** The loop when the provider answers every request and the cache file
    can never be written. *)
Lemma attempts_unsaved (text : string) (retries fuel attempt : nat)
    (w : Fill.world) :
  (∀ n, ∃ dsts,
     Fill.axios_post E n (request_at E text n) = Fill.TransResult dsts) →
  (∀ n, Fill.cache_write_fails E n = true) →
  (attempt + fuel = retries + 1)%nat → (1 ≤ fuel)%nat →
  ∃ w' dsts,
    Fill.attempts E text retries fuel attempt w = (w', Some (VStr text))
    ∧ Fill.requests w' = (Fill.requests w + fuel)%nat
    ∧ net_view (Fill.trace w')
      = net_view (Fill.trace w) ++ retry_schedule text attempt fuel
    ∧ Fill.axios_post E (Fill.requests w + fuel - 1)
        (request_at E text (Fill.requests w + fuel - 1))
      = Fill.TransResult dsts
    ∧ Fill.cache w'
      = <[text := JS.trim (JS.join JS.NL (VStr <$> dsts))]> (Fill.cache w)
    ∧ Fill.files w' = Fill.files w.
Proof.
  intros Hanswers Hdisk. revert attempt w.
  induction fuel as [|fuel IH]; intros attempt w Hsum Hpos; [lia |].
  rewrite attempts_S. cbv zeta. rewrite build_params_request_at.
  destruct (Hanswers (Fill.requests w)) as [d Hnow]. rewrite Hnow.
  unfold Fill.saveCache. rewrite Hdisk. cbv iota.
  destruct (Nat.eqb_spec attempt retries) as [Heq | Hne].
  - assert (fuel = 0%nat) as -> by lia.
    eexists. exists d. split; [done |]. simpl.
    rewrite !net_view_app. simpl. rewrite ?app_nil_r.
    replace (Fill.requests w + 1 - 1)%nat with (Fill.requests w) by lia.
    repeat split; try done. lia.
  - destruct fuel as [|fuel]; [lia |].
    match goal with
    | |- context [Fill.attempts _ _ _ _ ?a ?w0] =>
        destruct (IH a w0) as (w' & dsts & -> & Hreq & Hnet & Hlast & Hc & Hf);
          [lia | lia |];
        change (Fill.requests w0) with (S (Fill.requests w)) in Hlast
    end.
    replace (S (Fill.requests w) + S fuel - 1)%nat
      with (Fill.requests w + S (S fuel) - 1)%nat in Hlast by lia.
    exists w', dsts. split; [done |].
    rewrite Hreq, Hnet, Hc, Hf. simpl.
    rewrite !net_view_app. simpl. rewrite ?app_nil_r, <- ?app_assoc. simpl.
    split; [lia |]. split; [done |]. split; [exact Hlast |].
    split; [apply insert_insert_eq | done].
Qed.

(** X24.  The answer of the provider is lost when the cache file cannot be
    written: [saveCache] is called inside the [try], so its failure is
    handled like a failed request.  For a text that the cache does not
    serve, when every request is answered and no write of the cache file
    succeeds, [translateText] makes [retries] requests with the waits of
    the retry schedule between them and returns the text itself; the
    answer to the last request is in the cache in memory, and no file was
    written. *)
Theorem unsaved_translation_is_discarded (text : string) (retries : nat)
    (w : Fill.world) :
  Fill.cache w !! text = None → text ∉ JS.Object_prototype →
  (∀ n, ∃ dsts,
     Fill.axios_post E n (request_at E text n) = Fill.TransResult dsts) →
  (∀ n, Fill.cache_write_fails E n = true) →
  (1 ≤ retries)%nat →
  ∃ w' dsts,
    Fill.translateText E text retries w = (w', Some (VStr text))
    ∧ Fill.requests w' = (Fill.requests w + retries)%nat
    ∧ net_view (Fill.trace w')
      = net_view (Fill.trace w) ++ retry_schedule text 1 retries
    ∧ Fill.axios_post E (Fill.requests w + retries - 1)
        (request_at E text (Fill.requests w + retries - 1))
      = Fill.TransResult dsts
    ∧ Fill.cache w'
      = <[text := JS.trim (JS.join JS.NL (VStr <$> dsts))]> (Fill.cache w)
    ∧ Fill.files w' = Fill.files w.
Proof.
  intros Hmiss Hout Hanswers Hdisk Hpos. unfold Fill.translateText.
  rewrite (get_undefined _ _ Hmiss Hout).
  apply attempts_unsaved; [done | done | lia | lia].
Qed.

End MoreTranslateFacts.

Lemma translation_succeeds_after_failures_witness :
  ∃ w',
    Fill.translateText (H := Examples.libraries)
      (Examples.env (Samples.provider_recovers 2 ["你好 "])) "Hello"
      Fill.RETRY_LIMIT (Examples.start ∅ ∅) = (w', Some (VStr "你好"))
    ∧ net_view (Fill.trace w')
      = [inl "Hello"; inr 1000; inl "Hello"; inr 2000; inl "Hello"]
    ∧ Fill.cache w' = {[ "Hello" := "你好" ]}.
Proof.
  destruct (translation_succeeds_after_failures (H := Examples.libraries)
              (Examples.env (Samples.provider_recovers 2 ["你好 "])) "Hello"
              Fill.RETRY_LIMIT 2 (Examples.start ∅ ∅) ["你好 "])
    as (w' & Hrun & _ & _ & Hnet & _ & Hcache & _).
  - reflexivity.
  - decide_by_computation.
  - unfold Fill.RETRY_LIMIT. lia.
  - intros i Hi dsts. simpl. unfold Samples.provider_recovers.
    destruct (Nat.ltb_spec i 2); [discriminate | lia].
  - reflexivity.
  - reflexivity.
  - exists w'. split; [exact Hrun |]. split; [exact Hnet |].
    rewrite Hcache. vm_compute; reflexivity.
Defined.

Lemma translation_is_memoised_witness :
  (Fill.translateText (H := Examples.libraries)
     (Examples.env (Samples.provider_recovers 1 ["你好"])) "Hello" 1
     (Fill.translateText (H := Examples.libraries)
        (Examples.env (Samples.provider_recovers 1 ["你好"])) "Hello"
        Fill.RETRY_LIMIT (Examples.start ∅ ∅)).1).2
  = (Fill.translateText (H := Examples.libraries)
       (Examples.env (Samples.provider_recovers 1 ["你好"])) "Hello"
       Fill.RETRY_LIMIT (Examples.start ∅ ∅)).2.
Proof.
  apply (translation_is_memoised (H := Examples.libraries)
           (Examples.env (Samples.provider_recovers 1 ["你好"])) "Hello"
           Fill.RETRY_LIMIT 1 1 (Examples.start ∅ ∅) ["你好"]).
  - reflexivity.
  - decide_by_computation.
  - unfold Fill.RETRY_LIMIT. lia.
  - intros i Hi dsts. simpl. unfold Samples.provider_recovers.
    destruct (Nat.ltb_spec i 1); [discriminate | lia].
  - reflexivity.
  - reflexivity.
  - vm_compute. discriminate.
Defined.

Lemma unsaved_translation_is_discarded_witness :
  ∃ w',
    Fill.translateText (H := Examples.libraries)
      (Samples.full_disk (Examples.provider_answers ["你好"])) "Hello"
      Fill.RETRY_LIMIT (Examples.start ∅ ∅) = (w', Some (VStr "Hello"))
    ∧ Fill.requests w' = 3%nat
    ∧ Fill.cache w' = {[ "Hello" := "你好" ]}
    ∧ Fill.files w' = ∅.
Proof.
  destruct (unsaved_translation_is_discarded (H := Examples.libraries)
              (Samples.full_disk (Examples.provider_answers ["你好"]))
              "Hello" Fill.RETRY_LIMIT (Examples.start ∅ ∅))
    as (w' & dsts & Hrun & Hreq & _ & Hlast & Hcache & Hfiles).
  - reflexivity.
  - decide_by_computation.
  - intros n. by eexists.
  - reflexivity.
  - unfold Fill.RETRY_LIMIT. lia.
  - exists w'. split; [exact Hrun |]. split; [exact Hreq |].
    split; [| exact Hfiles].
    rewrite Hcache. injection Hlast as <-. vm_compute; reflexivity.
Defined.

(** ** Further properties of the fill loop and of [main] *)

Section MoreFillFacts.
Context `{Fill.Imports} (E : Fill.Env).

Lemma main_cases (w : Fill.world) :
  Fill.main E w
  = match Fill.files w !! Fill.INPUT_PO_FILE with
    | Some (File input) =>
        match Fill.po_parse input with
        | Some po =>
            match Fill.fill_catalog E po w with
            | (w', Ok po') =>
                Fill.log (Fill.Done Fill.OUTPUT_PO_FILE)
                  (Fill.writeFileSync Fill.OUTPUT_PO_FILE
                     (Fill.po_compile po') w')
            | (w', Throw _) => Fill.log Fill.Unexpected w'
            end
        | None => Fill.log Fill.Unexpected w
        end
    | _ => Fill.log Fill.Unexpected w
    end.
Proof.
  unfold Fill.main, Fill.bind, Fill.readFileSync, Fill.effect.
  destruct (Fill.files w !! Fill.INPUT_PO_FILE) as [[input | names |] |];
    try done.
  destruct (Fill.po_parse input) as [po |]; [| done].
  by destruct (Fill.fill_catalog E po w) as [w' [po' | x]].
Qed.

Lemma fill_context_cases (name : string) (c : context) (w : Fill.world) :
  Fill.fill_context E (name, c) w
  = match Fill.mapM (Fill.fill_entry E) c w with
    | (w', Ok c') => (w', Ok (name, c'))
    | (w', Throw x) => (w', Throw x)
    end.
Proof.
  unfold Fill.fill_context, Fill.bind, Fill.ret. simpl.
  by destruct (Fill.mapM (Fill.fill_entry E) c w) as [w' [c' | x]].
Qed.

(** The three things that an iteration of the loop can do. *)
Lemma fill_entry_cases (kv : string * entry) (w : Fill.world) :
  (already_translated kv ∧ Fill.fill_entry E kv w = (w, Ok kv))
  ∨ (kv.1 ≠ "" ∧ ∃ x, Fill.needs_translation kv.2 = Throw x
                      ∧ Fill.fill_entry E kv w = (w, Throw x))
  ∨ (kv.1 ≠ "" ∧ Fill.needs_translation kv.2 = Ok true
     ∧ ∃ w1 t,
         Fill.translateText E (Fill.originalText kv.2) Fill.RETRY_LIMIT
           (Fill.log (Fill.Translating kv.1) w) = (w1, Some t)
         ∧ Fill.fill_entry E kv w
           = (Fill.sleep Fill.REQUEST_DELAY
                (Fill.log (Fill.Translated t) w1),
              Ok (kv.1, Entry (msgid kv.2) (Some (Arr [t]))))).
Proof.
  destruct kv as [key e]. cbn [fst snd].
  destruct (decide (key = "")) as [-> | Hkey].
  { left. split; [by left | apply fill_entry_header]. }
  destruct (Fill.needs_translation e) as [[|] | x] eqn:Hneeds.
  - right. right. split; [done |]. split; [done |].
    by apply fill_entry_translates.
  - left. split; [by right | by apply fill_entry_skips].
  - right. left. split; [done |]. exists x. split; [done |].
    by apply fill_entry_throws.
Qed.

(** *** A catalog with nothing to translate *)




(** X8.  An entry that needs translation and whose flattened source text
    is in the cache with a non-empty value gets that value as its one
    [msgstr] element without any request; the loop still waits
    [REQUEST_DELAY] after it. *)
Theorem cached_entry_still_waits (key v : string) (e : entry)
    (w : Fill.world) :
  key ≠ "" → Fill.needs_translation e = Ok true →
  Fill.cache w !! Fill.originalText e = Some v → v ≠ "" →
  Fill.fill_entry E (key, e) w
    = (Fill.sleep Fill.REQUEST_DELAY
         (Fill.log (Fill.Translated (VStr v))
            (Fill.log (Fill.UsingCache (Fill.originalText e))
               (Fill.log (Fill.Translating key) w))),
       Ok (key, Entry (msgid e) (Some (Arr [VStr v]))))
  ∧ posts (Fill.trace (Fill.fill_entry E (key, e) w).1) = posts (Fill.trace w)
  ∧ sleeps (Fill.trace (Fill.fill_entry E (key, e) w).1)
    = sleeps (Fill.trace w) ++ [Fill.REQUEST_DELAY]
  ∧ Fill.requests (Fill.fill_entry E (key, e) w).1 = Fill.requests w.
Proof.
  intros Hkey Hneeds Hhit Hv.
  destruct (fill_entry_translates E key e w Hkey Hneeds)
    as (w1 & t & Hrun & Hfill).
  unfold Fill.translateText in Hrun.
  change (Fill.cache (Fill.log (Fill.Translating key) w))
    with (Fill.cache w) in Hrun.
  rewrite (get_own _ _ _ Hhit) in Hrun. cbn [JS.truthy_value] in Hrun.
  apply truthy_spec in Hv. rewrite Hv in Hrun.
  injection Hrun as <- <-.
  rewrite Hfill. split; [done |]. simpl.
  rewrite <- !app_assoc, !posts_app, !sleeps_app. simpl.
  by rewrite !app_nil_r.
Qed.

(** *** What a run may touch *)

Lemma translateText_frame (text : string) (retries : nat) (w : Fill.world) :
  (∀ p, p ≠ Fill.CACHE_FILE →
     Fill.files (Fill.translateText E text retries w).1 !! p
     = Fill.files w !! p)
  ∧ (Fill.requests w ≤ Fill.requests (Fill.translateText E text retries w).1
     ≤ Fill.requests w + retries)%nat.
Proof.
  unfold Fill.translateText.
  destruct (JS.get (Fill.cache w) text) as [v |];
    [destruct (JS.truthy_value v) |].
  1: by (simpl; split; [| lia]).
  all: split; [| apply attempts_bound].
  all: intros p Hp;
    destruct (attempts_write_through E text retries retries 1 w ltac:(lia))
      as [(_ & -> & _) | [(t & _ & _ & ->) | (t & _ & _ & ->)]];
    [done | by rewrite lookup_insert_ne | done].
Qed.

Lemma fill_entry_frame (kv : string * entry) (w : Fill.world) :
  (∀ p, p ≠ Fill.CACHE_FILE →
     Fill.files (Fill.fill_entry E kv w).1 !! p = Fill.files w !! p)
  ∧ (Fill.requests w ≤ Fill.requests (Fill.fill_entry E kv w).1
     ≤ Fill.requests w + Fill.RETRY_LIMIT)%nat.
Proof.
  destruct (fill_entry_cases kv w)
    as [[_ ->] | [(_ & x & _ & ->) | (_ & _ & w1 & t & Hrun & ->)]];
    [by (simpl; split; [| lia]).. |].
  pose proof (translateText_frame (Fill.originalText kv.2) Fill.RETRY_LIMIT
                (Fill.log (Fill.Translating kv.1) w)) as Hframe.
  rewrite Hrun in Hframe. exact Hframe.
Qed.

Lemma mapM_world_cons {A B} (f : A → Fill.M B) (a : A) (l : list A)
    (w : Fill.world) :
  (Fill.mapM f (a :: l) w).1
  = match f a w with
    | (w1, Ok _) => (Fill.mapM f l w1).1
    | (w1, Throw _) => w1
    end.
Proof.
  rewrite mapM_cons. destruct (f a w) as [w1 [b | x]]; [| done].
  by destruct (Fill.mapM f l w1) as [w2 [bs | x]].
Qed.

Lemma fill_entries_frame (c : context) (w : Fill.world) :
  (∀ p, p ≠ Fill.CACHE_FILE →
     Fill.files (Fill.mapM (Fill.fill_entry E) c w).1 !! p
     = Fill.files w !! p)
  ∧ (Fill.requests w ≤ Fill.requests (Fill.mapM (Fill.fill_entry E) c w).1
     ≤ Fill.requests w + Fill.RETRY_LIMIT * length c)%nat.
Proof.
  revert w. induction c as [|kv c IH]; intros w; [simpl; split; [done | lia] |].
  rewrite mapM_world_cons.
  destruct (fill_entry_frame kv w) as [Hfiles Hreq].
  destruct (Fill.fill_entry E kv w) as [w1 [kv' | x]]; simpl in Hfiles, Hreq.
  - destruct (IH w1) as [Hfiles' Hreq']. split.
    + intros p Hp. by rewrite Hfiles', Hfiles.
    + simpl length. lia.
  - split; [done |]. simpl length. lia.
Qed.

Lemma fill_catalog_frame (po : catalog) (w : Fill.world) :
  (∀ p, p ≠ Fill.CACHE_FILE →
     Fill.files (Fill.fill_catalog E po w).1 !! p = Fill.files w !! p)
  ∧ (Fill.requests w ≤ Fill.requests (Fill.fill_catalog E po w).1
     ≤ Fill.requests w + Fill.RETRY_LIMIT * length (all_entries po))%nat.
Proof.
  unfold Fill.fill_catalog. revert w.
  induction po as [|[name c] po IH]; intros w; [simpl; split; [done | lia] |].
  change (all_entries ((name, c) :: po)) with (c ++ all_entries po).
  rewrite length_app, mapM_world_cons, fill_context_cases.
  destruct (fill_entries_frame c w) as [Hfiles Hreq].
  destruct (Fill.mapM (Fill.fill_entry E) c w) as [w1 [c' | x]];
    simpl in Hfiles, Hreq.
  - destruct (IH w1) as [Hfiles' Hreq']. split.
    + intros p Hp. by rewrite Hfiles', Hfiles.
    + unfold Fill.RETRY_LIMIT in *. lia.
  - split; [done |]. unfold Fill.RETRY_LIMIT in *. lia.
Qed.

(** X9.  Whatever the catalog and the provider, the loop over a catalog
    makes at most [RETRY_LIMIT] requests per entry, and the only file it
    writes is the cache file. *)
Theorem fill_loop_budget (po : catalog) (w : Fill.world) :
  (Fill.requests w ≤ Fill.requests (Fill.fill_catalog E po w).1
   ≤ Fill.requests w + Fill.RETRY_LIMIT * length (all_entries po))%nat
  ∧ (∀ p, p ≠ Fill.CACHE_FILE →
       Fill.files (Fill.fill_catalog E po w).1 !! p = Fill.files w !! p).
Proof.
  destruct (fill_catalog_frame po w) as [Hfiles Hreq]. by split.
Qed.

(** X10.  A run of [main] ends either with the line that reports the
    output or with the line that reports an unexpected error.  In the
    second case the output file is not written; in either case no file but
    the cache file and the output file is written, and when the input
    cannot be read or parsed nothing is done at all. *)
Theorem main_outcomes (w : Fill.world) :
  (last (Fill.trace (Fill.main E w))
     = Some (Fill.Log (Fill.Done Fill.OUTPUT_PO_FILE))
   ∨ last (Fill.trace (Fill.main E w)) = Some (Fill.Log Fill.Unexpected)
     ∧ Fill.files (Fill.main E w) !! Fill.OUTPUT_PO_FILE
       = Fill.files w !! Fill.OUTPUT_PO_FILE)
  ∧ (∀ p, p ≠ Fill.CACHE_FILE → p ≠ Fill.OUTPUT_PO_FILE →
       Fill.files (Fill.main E w) !! p = Fill.files w !! p)
  ∧ ((∀ input po, Fill.files w !! Fill.INPUT_PO_FILE = Some (File input) →
                  Fill.po_parse input ≠ Some po) →
     Fill.main E w = Fill.log Fill.Unexpected w).
Proof.
  rewrite main_cases.
  destruct (Fill.files w !! Fill.INPUT_PO_FILE) as [[input | names |] |]
    eqn:Hfile.
  2-4: by (simpl; rewrite last_snoc; auto).
  destruct (Fill.po_parse input) as [po |] eqn:Hparse;
    [| by (simpl; rewrite last_snoc; auto)].
  destruct (fill_catalog_frame po w) as [Hfiles _].
  destruct (Fill.fill_catalog E po w) as [w' [po' | x]]; simpl in Hfiles.
  - split; [left; simpl; by rewrite last_snoc |]. split.
    + intros p Hc Ho. simpl. rewrite lookup_insert_ne by done. by apply Hfiles.
    + intros Hbad. by destruct (Hbad input po).
  - split; [right; simpl; rewrite last_snoc; split; [done |];
            by apply Hfiles |].
    split; [intros p Hc Ho; by apply Hfiles |].
    intros Hbad. by destruct (Hbad input po).
Qed.

(** *** Catalogs as the parser yields them *)

Lemma fill_entries_complete (c : context) (w : Fill.world) :
  Forall well_shaped c →
  ∃ w' c', Fill.mapM (Fill.fill_entry E) c w = (w', Ok c')
           ∧ Forall2 filled c c'.
Proof.
  intros Hall. revert w.
  induction Hall as [|kv c Hkv _ IH]; intros w.
  { exists w, []. split; [done | constructor]. }
  rewrite mapM_cons.
  destruct (fill_entry_cases kv w)
    as [[Hdone ->] | [(_ & x & Hthrow & _)
                     | (Hkey & Hneeds & w1 & t & _ & ->)]].
  - destruct (IH w) as (w' & c' & -> & Hc').
    exists w', (kv :: c'). split; [done |]. constructor; [by left | done].
  - unfold Fill.needs_translation in Hthrow.
    destruct Hkv as [Hnone | [l Hl]]; [rewrite Hnone in Hthrow
                                      | rewrite Hl in Hthrow]; done.
  - match goal with
    | |- context [Fill.mapM _ c ?w2] =>
        destruct (IH w2) as (w' & c' & -> & Hc')
    end.
    eexists _, (_ :: c'). split; [done |]. constructor; [| done].
    right. split; [done |]. split; [done |]. by exists t.
Qed.

Lemma fill_catalog_complete (po : catalog) (w : Fill.world) :
  Forall well_shaped (all_entries po) →
  ∃ w' po', Fill.fill_catalog E po w = (w', Ok po') ∧ catalog_filled po po'.
Proof.
  unfold Fill.fill_catalog. revert w.
  induction po as [|[name c] po IH]; intros w.
  { intros _. exists w, []. split; [done | constructor]. }
  change (all_entries ((name, c) :: po)) with (c ++ all_entries po).
  intros [Hc Hpo]%Forall_app.
  rewrite mapM_cons, fill_context_cases.
  destruct (fill_entries_complete c w Hc) as (w1 & c' & -> & Hc').
  destruct (IH w1 Hpo) as (w' & po' & -> & Hpo').
  exists w', ((name, c') :: po'). split; [done |]. by constructor.
Qed.

(** X11.  For a catalog as the parser yields it, with every [msgstr]
    absent or an array, the loop always completes, whatever the provider
    and the cache file do: it returns a catalog of the same shape in which
    the header entries and the entries with a translation that is not
    blank are as they were, and every other entry has a one-element
    [msgstr] and its [msgid] unchanged; [main] then writes the compiled
    result to the output file (a write that is taken to succeed) and
    leaves the input file as it is. *)
Theorem main_writes_filled_catalog (w : Fill.world) (input : string)
    (po : catalog) :
  Fill.files w !! Fill.INPUT_PO_FILE = Some (File input) →
  Fill.po_parse input = Some po →
  Forall well_shaped (all_entries po) →
  ∃ w1 po',
    Fill.fill_catalog E po w = (w1, Ok po')
    ∧ catalog_filled po po'
    ∧ Fill.main E w
      = Fill.log (Fill.Done Fill.OUTPUT_PO_FILE)
          (Fill.writeFileSync Fill.OUTPUT_PO_FILE (Fill.po_compile po') w1)
    ∧ Fill.files (Fill.main E w) !! Fill.OUTPUT_PO_FILE
      = Some (File (Fill.po_compile po'))
    ∧ Fill.files (Fill.main E w) !! Fill.INPUT_PO_FILE = Some (File input).
Proof.
  intros Hfile Hparse Hshape.
  destruct (fill_catalog_complete po w Hshape) as (w1 & po' & Hrun & Hfilled).
  exists w1, po'. split; [done |]. split; [done |].
  assert (Fill.main E w
          = Fill.log (Fill.Done Fill.OUTPUT_PO_FILE)
              (Fill.writeFileSync Fill.OUTPUT_PO_FILE
                 (Fill.po_compile po') w1)) as Hmain
    by (by rewrite main_cases, Hfile, Hparse, Hrun).
  split; [exact Hmain |]. rewrite Hmain. simpl.
  split; [apply lookup_insert_eq |].
  rewrite lookup_insert_ne by done.
  destruct (fill_catalog_frame po w) as [Hfiles _].
  rewrite Hrun in Hfiles. simpl in Hfiles. by rewrite Hfiles.
Qed.

(** X12.  A second pass leaves alone what the first pass translated: once
    the loop has given an entry a translation that is not blank, the loop
    does nothing for that entry, in any state. *)
Theorem second_pass_skips_translated (key : string) (t : value)
    (e e' : entry) (w w' w2 : Fill.world) :
  key ≠ "" → Fill.needs_translation e = Ok true →
  Fill.fill_entry E (key, e) w = (w', Ok (key, e')) →
  msgstr e' = Some (Arr [t]) → JS.trim (JS.text t) ≠ "" →
  e' = Entry (msgid e) (Some (Arr [t]))
  ∧ Fill.needs_translation e' = Ok false
  ∧ Fill.fill_entry E (key, e') w2 = (w2, Ok (key, e')).
Proof.
  intros Hkey Hneeds Hfirst Hmsgstr Ht.
  destruct (fill_entry_translates E key e w Hkey Hneeds)
    as (w1 & t' & _ & Hfill).
  rewrite Hfill in Hfirst. injection Hfirst as _ He'. subst e'.
  simpl in Hmsgstr. injection Hmsgstr as ->.
  assert (Fill.needs_translation (Entry (msgid e) (Some (Arr [t])))
          = Ok false) as Hdone.
  { unfold Fill.needs_translation. simpl. f_equal.
    by apply bool_decide_eq_false. }
  split; [done |]. split; [done |]. by apply fill_entry_skips.
Qed.

End MoreFillFacts.


Lemma cached_entry_still_waits_witness :
  sleeps
    (Fill.trace
       (Fill.fill_entry (H := Examples.libraries)
          (Examples.env Examples.provider_down) Samples.greeting
          (Examples.start {[ "Hello" := "你好" ]} ∅)).1)
  = [1000].
Proof.
  apply (cached_entry_still_waits (H := Examples.libraries)
           (Examples.env Examples.provider_down) "Hello" "你好"
           (Entry (Str "Hello") (Some (Arr [VStr ""])))
           (Examples.start {[ "Hello" := "你好" ]} ∅)).
  - discriminate.
  - vm_compute; reflexivity.
  - vm_compute; reflexivity.
  - discriminate.
Defined.

Lemma main_writes_filled_catalog_witness :
  ∃ w1 po',
    Fill.fill_catalog (H := Examples.libraries)
      (Examples.env Examples.provider_down) Examples.hello_todo
      (Examples.start ∅ (Samples.on_disk "todo")) = (w1, Ok po')
    ∧ catalog_filled Examples.hello_todo po'.
Proof.
  destruct (main_writes_filled_catalog (H := Examples.libraries)
              (Examples.env Examples.provider_down)
              (Examples.start ∅ (Samples.on_disk "todo")) "todo"
              Examples.hello_todo)
    as (w1 & po' & Hrun & Hfilled & _).
  - vm_compute; reflexivity.
  - vm_compute; reflexivity.
  - change (all_entries Examples.hello_todo)
      with [Examples.header; Examples.untranslated "Hello"].
    apply Forall_cons. split; [right; by eexists |].
    apply Forall_cons. split; [right; by eexists | constructor].
  - by exists w1, po'.
Defined.

Lemma second_pass_skips_translated_witness :
  Fill.fill_entry (H := Examples.libraries)
    (Examples.env (Examples.provider_answers ["你好"]))
    ("Hello", Entry (Str "Hello") (Some (Arr [VStr "你好"])))
    (Examples.start ∅ ∅)
  = (Examples.start ∅ ∅,
     Ok ("Hello", Entry (Str "Hello") (Some (Arr [VStr "你好"])))).
Proof.
  apply (second_pass_skips_translated (H := Examples.libraries)
           (Examples.env (Examples.provider_answers ["你好"])) "Hello"
           (VStr "你好")
           (Entry (Str "Hello") (Some (Arr [VStr ""])))
           (Entry (Str "Hello") (Some (Arr [VStr "你好"])))
           (Examples.start ∅ ∅)
           (Fill.fill_entry (H := Examples.libraries)
              (Examples.env (Examples.provider_answers ["你好"]))
              Samples.greeting (Examples.start ∅ ∅)).1
           (Examples.start ∅ ∅)).
  - discriminate.
  - vm_compute; reflexivity.
  - vm_compute; reflexivity.
  - reflexivity.
  - vm_compute. discriminate.
Defined.

(** ** Further properties of the extraction *)

Section MoreExtractFacts.
Context `{Extract.Imports}.

(** X13.  A single [.po] file gives the mapping of its catalog, nothing
    more: merging into the empty object adds and drops nothing. *)
Theorem single_file_extraction (fs : gmap string node) (inputPath : string)
    (content : string) (po : catalog) :
  fs !! inputPath = Some (File content) →
  Extract.extname inputPath = ".po" →
  Extract.po_parse content = Some po →
  Extract.processPoPath fs inputPath = Ok (Extract.extract_catalog po).
Proof.
  intros Hfile Hext Hparse.
  unfold Extract.processPoPath, Extract.extractTranslations,
    Extract.readFileSync.
  rewrite Hfile. destruct (decide (Extract.extname inputPath = ".po")); [| done].
  simpl. rewrite Hparse. simpl. f_equal.
  unfold Extract.Object_assign. apply map_eq. intros k.
  by rewrite lookup_union_l.
Qed.

Lemma process_files_filter (fs : gmap string node) (dir : string)
    (files : list string) (acc : gmap string string) :
  Extract.process_files fs dir files acc
  = Extract.process_files fs dir
      (filter (λ f, Extract.extname f = ".po") files) acc.
Proof.
  revert acc. induction files as [|f files IH]; intros acc; [done |].
  destruct (decide (Extract.extname f = ".po")) as [Hext | Hext].
  - rewrite (filter_cons_True (λ f, Extract.extname f = ".po")) by done.
    simpl. destruct (decide (Extract.extname f = ".po")); [| done].
    destruct (Extract.extractTranslations fs (Extract.path_join dir f));
      simpl; [apply IH | done].
  - rewrite (filter_cons_False (λ f, Extract.extname f = ".po")) by done.
    simpl. destruct (decide (Extract.extname f = ".po")); [done | apply IH].
Qed.

(** X14.  In a directory only the names with the extension [.po] count:
    the other entries are never read, whatever they are, and a directory
    without any [.po] name gives the empty mapping, not an error. *)
Theorem directory_ignores_other_files (fs : gmap string node) (dir : string)
    (files : list string) :
  fs !! dir = Some (Dir files) →
  Extract.processPoPath fs dir
    = Extract.process_files fs dir
        (filter (λ f, Extract.extname f = ".po") files) ∅
  ∧ (Forall (λ f, Extract.extname f ≠ ".po") files →
     Extract.processPoPath fs dir = Ok ∅).
Proof.
  intros Hdir. unfold Extract.processPoPath. rewrite Hdir.
  split; [apply process_files_filter |].
  intros Hnone. clear Hdir. induction Hnone as [|f files Hf _ IH]; [done |].
  simpl. destruct (decide (Extract.extname f = ".po")); done.
Qed.

(** X15.  The first [.po] file of a directory that cannot be read or
    parsed stops the extraction with its error: there is no partial
    mapping, and the files after it are not looked at. *)
Theorem directory_extraction_stops_at_first_failure (fs : gmap string node)
    (dir : string) (pre post : list string) (f : string) (x : exn) :
  fs !! dir = Some (Dir (pre ++ f :: post)) →
  (∀ g, g ∈ pre → Extract.extname g = ".po" →
        ∃ tr, Extract.extractTranslations fs (Extract.path_join dir g) = Ok tr) →
  Extract.extname f = ".po" →
  Extract.extractTranslations fs (Extract.path_join dir f) = Throw x →
  Extract.processPoPath fs dir = Throw x.
Proof.
  intros Hdir Hpre Hext Hthrow. unfold Extract.processPoPath. rewrite Hdir.
  clear Hdir. generalize (∅ : gmap string string) as acc. revert Hpre.
  induction pre as [|p pre IH]; intros Hpre acc; simpl.
  - destruct (decide (Extract.extname f = ".po")); [| done].
    by rewrite Hthrow.
  - assert (∀ g, g ∈ pre → Extract.extname g = ".po" →
              ∃ tr, Extract.extractTranslations fs (Extract.path_join dir g)
                    = Ok tr) as Hrest.
    { intros g Hg. apply Hpre. by apply list_elem_of_further. }
    destruct (decide (Extract.extname p = ".po")) as [Hp | Hp].
    + destruct (Hpre p (list_elem_of_here _ _) Hp) as [tr ->]. simpl.
      by apply IH.
    + by apply IH.
Qed.

Lemma extractTranslations_error (fs : gmap string node) (p : string)
    (x : exn) :
  Extract.extractTranslations fs p = Throw x →
  x = ENOENT p ∨ x = EISDIR p ∨ x = ParseError.
Proof.
  unfold Extract.extractTranslations, Extract.readFileSync.
  destruct (fs !! p) as [[content | names |] |]; simpl;
    try (intros [= <-]; auto).
  destruct (Extract.po_parse content); [done |]. intros [= <-]. auto.
Qed.

Lemma process_files_error (fs : gmap string node) (dir : string)
    (files : list string) (acc : gmap string string) (x : exn) :
  Extract.process_files fs dir files acc = Throw x →
  ∃ f, f ∈ files ∧ Extract.extname f = ".po"
       ∧ Extract.extractTranslations fs (Extract.path_join dir f) = Throw x.
Proof.
  revert acc. induction files as [|f files IH]; intros acc; [done |].
  simpl. destruct (decide (Extract.extname f = ".po")) as [Hext | Hext].
  - destruct (Extract.extractTranslations fs (Extract.path_join dir f))
      as [tr | y] eqn:Hf; simpl.
    + intros (g & Hg & Hrest)%IH. exists g.
      split; [by apply list_elem_of_further | done].
    + intros [= <-]. exists f. split; [apply list_elem_of_here | done].
  - intros (g & Hg & Hrest)%IH. exists g.
    split; [by apply list_elem_of_further | done].
Qed.

(** X16.  The invalid-path error is raised exactly for a path that exists
    and is neither a directory nor a file named [.po]; it names that path.
    A path that does not exist fails in [statSync], and a failure inside a
    directory is one of reading or parsing a [.po] file. *)
Theorem invalid_path_exactly (fs : gmap string node) (inputPath q : string) :
  (Extract.processPoPath fs inputPath = Throw (InvalidPath q) ↔
     q = inputPath
     ∧ ((∃ content, fs !! inputPath = Some (File content)
                    ∧ Extract.extname inputPath ≠ ".po")
        ∨ fs !! inputPath = Some Special))
  ∧ (fs !! inputPath = None →
     Extract.processPoPath fs inputPath = Throw (ENOENT inputPath)).
Proof.
  unfold Extract.processPoPath.
  destruct (fs !! inputPath) as [[content | files |] |] eqn:Hpath.
  - split; [| done].
    destruct (decide (Extract.extname inputPath = ".po")) as [Hext | Hext].
    + split.
      * destruct (Extract.extractTranslations fs inputPath) as [tr | x] eqn:Hx;
          simpl; [done |].
        intros [= ->]. apply extractTranslations_error in Hx.
        by destruct Hx as [? | [? | ?]].
      * intros [_ [(c & _ & Hne) | ?]]; done.
    + split; [intros [= <-]; split; [done |]; left; by exists content |].
      by intros [-> _].
  - split; [| done]. split.
    + intros (f & _ & _ & Hx)%process_files_error.
      apply extractTranslations_error in Hx. by destruct Hx as [? | [? | ?]].
    + intros [_ [(c & ? & _) | ?]]; done.
  - split; [| done]. split; [intros [= <-]; auto |]. by intros [-> _].
  - split; [| done]. split; [done |]. intros [_ [(c & ? & _) | ?]]; done.
Qed.

Lemma process_files_domain (fs : gmap string node) (dir : string)
    (files : list string) (acc m : gmap string string) (s : string) :
  Extract.process_files fs dir files acc = Ok m →
  (is_Some (m !! s) ↔
     is_Some (acc !! s) ∨ ∃ f t, f ∈ files ∧ file_emits fs dir f s t).
Proof.
  revert acc. induction files as [|f files IH]; intros acc.
  - intros [= <-]. split; [auto |].
    intros [? | (f & t & Hf%elem_of_nil & _)]; done.
  - simpl. destruct (decide (Extract.extname f = ".po")) as [Hext | Hext].
    + destruct (Extract.extractTranslations fs (Extract.path_join dir f))
        as [tr |] eqn:Htr; simpl; [| done].
      intros Hrun. rewrite (IH _ Hrun), Object_assign_lookup. split.
      * intros [Hnow | (g & t & Hg & Hemit)].
        -- destruct (tr !! s) as [t |] eqn:Hs; [| by left].
           right. exists f, t. split; [apply list_elem_of_here |].
           split; [done |]. by exists tr.
        -- right. exists g, t. split; [by apply list_elem_of_further | done].
      * intros [Hacc | (g & t & Hg & Hemit)].
        -- left. destruct (tr !! s); [by eexists | done].
        -- apply elem_of_cons in Hg as [-> | Hg].
           ++ left. destruct Hemit as (_ & tr' & Htr' & Hs).
              rewrite Htr in Htr'. injection Htr' as <-.
              rewrite Hs. by eexists.
           ++ right. by exists g, t.
    + intros Hrun. rewrite (IH _ Hrun). split.
      * intros [? | (g & t & Hg & Hemit)]; [by left |].
        right. exists g, t. split; [by apply list_elem_of_further | done].
      * intros [? | (g & t & Hg & Hemit)]; [by left |].
        apply elem_of_cons in Hg as [-> | Hg].
        -- by destruct Hemit as [? _].
        -- right. by exists g, t.
Qed.

(** X17.  The merged mapping of a directory has a source text as a key
    exactly when the mapping of one of its [.po] files has it: merging
    invents no key and loses none. *)
Theorem merged_keys_are_the_files_keys (fs : gmap string node) (dir : string)
    (files : list string) (m : gmap string string) (s : string) :
  fs !! dir = Some (Dir files) →
  Extract.processPoPath fs dir = Ok m →
  (is_Some (m !! s) ↔ ∃ f t, f ∈ files ∧ file_emits fs dir f s t).
Proof.
  intros Hdir Hrun. unfold Extract.processPoPath in Hrun.
  rewrite Hdir in Hrun. rewrite (process_files_domain _ _ _ _ _ _ Hrun).
  rewrite lookup_empty. split; [| by right].
  intros [[? ?] | ?]; done.
Qed.

(** Some entry writes a key: then there is a last one that does. *)
Lemma last_emitter (l : list (string * entry)) (s : string) :
  (∃ kv t, kv ∈ l ∧ emits kv s t) →
  ∃ pre kv post t, l = pre ++ kv :: post ∧ emits kv s t
                   ∧ ∀ kv' t', kv' ∈ post → ¬ emits kv' s t'.
Proof.
  induction l as [|kv0 l IH] using rev_ind.
  - intros (kv & t & Hin%elem_of_nil & _). done.
  - intros (kv & t & Hin & Hemit).
    destruct (emits_dec kv0 s) as [[t0 Ht0] | Hnone].
    + exists l, kv0, [], t0. split; [done |]. split; [done |].
      by intros ?? ?%elem_of_nil.
    + apply elem_of_app in Hin as [Hin | ->%list_elem_of_singleton];
        [| by destruct (Hnone t)].
      destruct IH as (pre & kv1 & post & t1 & -> & Hkv1 & Hpost);
        [by exists kv, t |].
      exists pre, kv1, (post ++ [kv0]), t1.
      split; [by rewrite <- app_assoc |]. split; [done |].
      intros kv' t' [? | ->%list_elem_of_singleton]%elem_of_app;
        [by apply Hpost | apply Hnone].
Qed.

(** X18.  For a catalog in which no source text has two different
    non-empty translations, the output mapping holds a pair exactly when
    some non-header entry has that newline-joined source and that
    newline-joined translation, both non-empty. *)
Theorem consistent_catalog_extraction (po : catalog) (s t : string) :
  consistent po →
  (Extract.extract_catalog po !! s = Some t ↔
     ∃ kv, kv ∈ all_entries po ∧ emits kv s t).
Proof.
  intros Hcons. rewrite extract_catalog_lookup. split.
  - intros (pre & kv & post & Hl & Hemit & _). exists kv.
    split; [| done]. rewrite Hl. apply elem_of_app. right.
    apply list_elem_of_here.
  - intros (kv & Hin & Hemit).
    destruct (last_emitter (all_entries po) s) as
      (pre & kv1 & post & t1 & Hl & Hkv1 & Hpost); [by exists kv, t |].
    assert (t1 = t) as ->.
    { apply (Hcons kv1 kv s); [| done..].
      rewrite Hl. apply elem_of_app. right. apply list_elem_of_here. }
    by exists pre, kv1, post.
Qed.

End MoreExtractFacts.

Lemma single_file_extraction_witness :
  Extract.processPoPath (H := Examples.parser)
    {[ "messages.po" := File "partly" ]} "messages.po"
  = Ok (Extract.extract_catalog Examples.partly).
Proof.
  apply (single_file_extraction (H := Examples.parser)
           {[ "messages.po" := File "partly" ]} "messages.po" "partly"
           Examples.partly); vm_compute; reflexivity.
Defined.

Lemma directory_ignores_other_files_witness :
  Extract.processPoPath (H := Examples.parser) MoreSamples.mixed "locales"
  = Extract.process_files (H := Examples.parser) MoreSamples.mixed "locales"
      (filter (λ f, Extract.extname (Imports := Examples.parser) f = ".po")
         ["a.po"; "notes.txt"; "b.po.bak"]) ∅.
Proof.
  apply (directory_ignores_other_files (H := Examples.parser)
           MoreSamples.mixed "locales" ["a.po"; "notes.txt"; "b.po.bak"]).
  vm_compute; reflexivity.
Defined.

Lemma directory_extraction_stops_at_first_failure_witness :
  Extract.processPoPath (H := Examples.parser) (MoreSamples.broken "zh")
    "locales" = Throw ParseError.
Proof.
  apply (directory_extraction_stops_at_first_failure (H := Examples.parser)
           (MoreSamples.broken "zh") "locales" ["a.po"] ["notes.txt"] "b.po"
           ParseError).
  - vm_compute; reflexivity.
  - intros g ->%list_elem_of_singleton _. eexists. vm_compute; reflexivity.
  - vm_compute; reflexivity.
  - vm_compute; reflexivity.
Defined.

Lemma merged_keys_are_the_files_keys_witness :
  is_Some (({[ "Hello" := "你好"; "Bye" := "再见" ]} : gmap string string)
             !! "Bye")
  ↔ ∃ f t, f ∈ ["a.po"; "b.po"]
           ∧ file_emits (H := Examples.parser) (Examples.locales "zh" "bye")
               "locales" f "Bye" t.
Proof.
  apply (merged_keys_are_the_files_keys (H := Examples.parser)
           (Examples.locales "zh" "bye") "locales" ["a.po"; "b.po"]
           {[ "Hello" := "你好"; "Bye" := "再见" ]} "Bye");
    vm_compute; reflexivity.
Defined.

Lemma consistent_catalog_extraction_witness :
  Extract.extract_catalog Examples.partly !! "Hello" = Some "你好"
  ↔ ∃ kv, kv ∈ all_entries Examples.partly ∧ emits kv "Hello" "你好".
Proof.
  apply (consistent_catalog_extraction Examples.partly "Hello" "你好").
  intros kv1 kv2 s t1 t2 Hin1 Hin2 (Hk1 & Hs1 & Ht1 & _ & Hne1)
    (Hk2 & Hs2 & Ht2 & _ & Hne2).
  change (all_entries Examples.partly)
    with [Examples.header; Examples.translated "Hello" "你好";
          Examples.untranslated "Bye"] in Hin1, Hin2.
  rewrite !elem_of_cons, elem_of_nil in Hin1, Hin2.
  destruct Hin1 as [-> | [-> | [-> | []]]],
    Hin2 as [-> | [-> | [-> | []]]];
    cbv in Hk1, Hs1, Ht1, Hk2, Hs2, Ht2; congruence.
Defined.

(** ** The two scripts together, and their entry points *)

Section EntryPoints.
Context `{Extract.Imports} `{Fill.Imports} `{ExtractMain.Imports}.

Lemma process_files_values (fs : gmap string node) (dir : string)
    (files : list string) (acc m : gmap string string) :
  (∀ s t, acc !! s = Some t → t ≠ "") →
  Extract.process_files fs dir files acc = Ok m →
  ∀ s t, m !! s = Some t → t ≠ "".
Proof.
  revert acc. induction files as [|f files IH]; intros acc Hacc.
  - intros [= <-]. exact Hacc.
  - simpl. destruct (decide (Extract.extname f = ".po")); [| by apply IH].
    unfold Extract.extractTranslations.
    destruct (Extract.readFileSync fs (Extract.path_join dir f))
      as [content |]; simpl; [| done].
    destruct (Extract.po_parse content) as [po |]; simpl; [| done].
    apply IH. intros s t. rewrite Object_assign_lookup.
    destruct (Extract.extract_catalog po !! s) as [t' |] eqn:Hs.
    + intros [= <-]. by apply extract_catalog_nonempty in Hs as [_ ?].
    + apply Hacc.
Qed.

Lemma processPoPath_values (fs : gmap string node) (inputPath : string)
    (m : gmap string string) (s t : string) :
  Extract.processPoPath fs inputPath = Ok m → m !! s = Some t → t ≠ "".
Proof.
  unfold Extract.processPoPath.
  destruct (fs !! inputPath) as [[content | files |] |]; [| | done | done].
  - destruct (decide (Extract.extname inputPath = ".po")); [| done].
    unfold Extract.extractTranslations.
    destruct (Extract.readFileSync fs inputPath) as [c |]; simpl; [| done].
    destruct (Extract.po_parse c) as [po |]; simpl; [| done].
    intros [= <-]. rewrite Object_assign_lookup, lookup_empty.
    destruct (Extract.extract_catalog po !! s) as [t' |] eqn:Hs; [| done].
    intros [= <-]. by apply extract_catalog_nonempty in Hs as [_ ?].
  - intros Hrun. eapply process_files_values; [| exact Hrun]. done.
Qed.

(** X19.  The mapping that the extraction produces is a cache that the
    fill script can start from: when the cache file holds such a mapping,
    loading it raises no warning, and for every source text of the mapping
    [translateText] answers from the cache, with the extracted
    translation and without a request. *)
Theorem extraction_output_warms_the_cache (E : Fill.Env)
    (fs : gmap string node) (inputPath cacheContent : string)
    (m : gmap string string) (w : Fill.world) (s t : string)
    (retries : nat) :
  Extract.processPoPath fs inputPath = Ok m →
  Fill.files w !! Fill.CACHE_FILE = Some (File cacheContent) →
  Fill.JSON_parse cacheContent = Some m →
  m !! s = Some t →
  Fill.load_cache w = (Fill.set_cache m w, Ok tt)
  ∧ Fill.translateText E s retries (Fill.load_cache w).1
    = (Fill.log (Fill.UsingCache s) (Fill.set_cache m w), Some (VStr t))
  ∧ posts (Fill.trace (Fill.translateText E s retries (Fill.load_cache w).1).1)
    = posts (Fill.trace w).
Proof.
  intros Hrun Hfile Hparse Hs.
  assert (Fill.load_cache w = (Fill.set_cache m w, Ok tt)) as Hload
    by (unfold Fill.load_cache; by rewrite Hfile, Hparse).
  rewrite Hload. split; [done |].
  pose proof (processPoPath_values _ _ _ _ _ Hrun Hs) as Ht%truthy_spec.
  unfold Fill.translateText. simpl.
  rewrite (get_own _ _ _ Hs). cbn [JS.truthy_value]. rewrite Ht.
  split; [done |].
  simpl. rewrite posts_app. simpl. by rewrite app_nil_r.
Qed.

(** X20.  The fill script stops with exit code 1 exactly when one of the
    two credentials is unset or empty, and then it has done nothing but
    print its message: the cache file is not read, the catalog is not
    touched and no request is made. *)
Theorem credentials_are_checked_first (E : Fill.Env) (w : Fill.world) :
  ((Fill.script E w).2 = Throw (ProcessExit 1) ↔
     Fill.BAIDU_APP_ID E = "" ∨ Fill.BAIDU_SECRET_KEY E = "")
  ∧ ((Fill.script E w).2 = Throw (ProcessExit 1) →
     (Fill.script E w).1 = Fill.log Fill.MissingCredentials w).
Proof.
  unfold Fill.script, Fill.check_credentials, Fill.bind.
  destruct (JS.truthy (Fill.BAIDU_APP_ID E)) eqn:Hid;
    destruct (JS.truthy (Fill.BAIDU_SECRET_KEY E)) eqn:Hkey; simpl.
  2-4: split; [| done]; split; [intros _ | done];
    apply truthy_false in Hid || apply truthy_false in Hkey; auto.
  apply truthy_spec in Hid, Hkey.
  assert ((let (w', r) := Fill.load_cache w in
           match r with
           | Ok _ => Fill.effect (Fill.main E) w'
           | Throw e => (w', Throw e)
           end).2 ≠ Throw (ProcessExit 1)) as Hnot.
  { unfold Fill.load_cache.
    destruct (Fill.files w !! Fill.CACHE_FILE) as [[c | names |] |]; try done.
    by destruct (Fill.JSON_parse c). }
  split; [| done]. split; [done |]. intros [? | ?]; done.
Qed.


(** *** The directories that are made *)

Lemma iter_fixed {A} (f : A → A) (x : A) (k : nat) :
  f x = x → Nat.iter k f x = x.
Proof. intros Hfix. induction k as [|k IH]; simpl; congruence. Qed.

(** What is made was missing and lies above the directory. *)
Lemma missing_chain (fuel : nat) (fs : gmap string node) (dir p : string) :
  p ∈ ExtractMain.missing fuel fs dir →
  fs !! p = None ∧ ∃ k, p = Nat.iter k ExtractMain.dirname dir.
Proof.
  revert dir. induction fuel as [|fuel IH]; intros dir; simpl.
  { by intros ?%elem_of_nil. }
  destruct (decide (is_Some (fs !! dir))) as [Hexists | Hmissing];
    [by intros ?%elem_of_nil |].
  assert (fs !! dir = None) as Hnone
    by (destruct (fs !! dir) eqn:Hdir; [destruct Hmissing; eauto | done]).
  destruct (decide (ExtractMain.dirname dir = dir)) as [Hroot | Hup].
  - intros ->%list_elem_of_singleton. split; [done |]. by exists 0%nat.
  - intros [Hin | ->%list_elem_of_singleton]%elem_of_app.
    + destruct (IH _ Hin) as [Hp [k ->]]. split; [done |].
      exists (S k). by rewrite Nat.iter_succ_r.
    + split; [done |]. by exists 0%nat.
Qed.

(** Every directory of the chain up to the first that exists, or that is
    its own parent, exists already or is made. *)
Lemma missing_covers (fuel : nat) (fs : gmap string node) (dir : string)
    (n k : nat) :
  (n < fuel)%nat →
  (∀ i, (i < n)%nat → fs !! Nat.iter i ExtractMain.dirname dir = None) →
  is_Some (fs !! Nat.iter n ExtractMain.dirname dir)
  ∨ ExtractMain.dirname (Nat.iter n ExtractMain.dirname dir)
    = Nat.iter n ExtractMain.dirname dir →
  (k ≤ n)%nat →
  is_Some (fs !! Nat.iter k ExtractMain.dirname dir)
  ∨ Nat.iter k ExtractMain.dirname dir ∈ ExtractMain.missing fuel fs dir.
Proof.
  revert dir n k.
  induction fuel as [|fuel IH]; intros dir n k Hfuel Hbelow Htop Hk; [lia |].
  simpl.
  destruct (decide (is_Some (fs !! dir))) as [Hexists | Hmissing].
  { destruct n as [|n].
    - assert (k = 0%nat) as -> by lia. by left.
    - specialize (Hbelow 0%nat ltac:(lia)). simpl in Hbelow.
      rewrite Hbelow in Hexists. by destruct Hexists. }
  destruct (decide (ExtractMain.dirname dir = dir)) as [Hroot | Hup].
  { right. rewrite iter_fixed by done. by apply list_elem_of_singleton. }
  destruct k as [|k].
  { right. apply elem_of_app. right. by apply list_elem_of_singleton. }
  destruct n as [|n]; [lia |].
  rewrite Nat.iter_succ_r.
  destruct (IH (ExtractMain.dirname dir) n k) as [Hexists | Hmade].
  - lia.
  - intros i Hi. rewrite <- Nat.iter_succ_r. apply Hbelow. lia.
  - by rewrite <- !Nat.iter_succ_r.
  - lia.
  - by left.
  - right. apply elem_of_app. by left.
Qed.

Lemma mkdir_lookup (l : list string) (fs : gmap string node) (p : string) :
  foldl (λ fs' d, <[d := Dir []]> fs') fs l !! p
  = if decide (p ∈ l) then Some (Dir []) else fs !! p.
Proof.
  revert fs. induction l as [|d l IH]; intros fs; simpl.
  { done. }
  rewrite IH.
  destruct (decide (p ∈ l)) as [Hin | Hout].
  - rewrite decide_True; [done | by apply list_elem_of_further].
  - destruct (decide (p = d)) as [-> | Hne].
    + rewrite lookup_insert_eq, decide_True; [done | apply list_elem_of_here].
    + rewrite lookup_insert_ne by done.
      rewrite decide_False; [done |].
      by intros [? | ?]%elem_of_cons.
Qed.

Lemma mkdirSync_lookup (dir : string) (fs : gmap string node) (p : string) :
  (ExtractMain.mkdirSync dir fs !! p = fs !! p
   ∨ (fs !! p = None ∧ ExtractMain.mkdirSync dir fs !! p = Some (Dir [])
      ∧ ∃ k, p = Nat.iter k ExtractMain.dirname dir))
  ∧ (is_Some (fs !! p) → ExtractMain.mkdirSync dir fs !! p = fs !! p).
Proof.
  unfold ExtractMain.mkdirSync. rewrite mkdir_lookup.
  destruct (decide (p ∈ _)) as [Hin | Hout]; [| by split; [left |]].
  apply missing_chain in Hin as [Hnone Hchain].
  split; [by right |]. rewrite Hnone. by intros [? ?].
Qed.

(** X22.  When the extraction succeeds, the output file holds the JSON text
    of the mapping and the last line reports the number of pairs in it.
    Nothing is changed but the output file, its directory and the
    directories above it, and no other file is replaced.  A directory that
    exists is not made again; one that is missing is made with every
    missing directory above it, up to the first that exists or is its own
    parent.  Without a fourth argument, or with an empty one, the output
    file is [test.json]. *)
Theorem extraction_output_file (argv : list string) (fs : gmap string node)
    (poPath : string) (m : gmap string string) :
  argv !! 2%nat = Some poPath →
  Extract.processPoPath fs poPath = Ok m →
  let r := ExtractMain.main argv fs in
  let out := ExtractMain.outputPath argv in
  let dir := ExtractMain.dirname out in
  ExtractMain.files r !! out = Some (File (ExtractMain.JSON_stringify m))
  ∧ last (ExtractMain.events r) = Some (ExtractMain.Extracted (size m) out)
  ∧ (∀ p, (∀ k, p ≠ Nat.iter k ExtractMain.dirname out) →
       ExtractMain.files r !! p = fs !! p)
  ∧ (∀ p content, p ≠ out → fs !! p = Some (File content) →
       ExtractMain.files r !! p = Some (File content))
  ∧ (is_Some (fs !! dir) →
     ExtractMain.events r
     = [ExtractMain.WriteFile out; ExtractMain.Extracted (size m) out])
  ∧ (fs !! dir = None →
     ExtractMain.events r
     = [ExtractMain.Mkdir dir; ExtractMain.WriteFile out;
        ExtractMain.Extracted (size m) out]
     ∧ ∀ n, (n ≤ S (String.length dir))%nat →
         (∀ i, (i < n)%nat →
            fs !! Nat.iter i ExtractMain.dirname dir = None) →
         is_Some (fs !! Nat.iter n ExtractMain.dirname dir)
         ∨ ExtractMain.dirname (Nat.iter n ExtractMain.dirname dir)
           = Nat.iter n ExtractMain.dirname dir →
         ∀ k, (k ≤ n)%nat →
           is_Some (ExtractMain.files r
                      !! Nat.iter k ExtractMain.dirname dir))
  ∧ (argv !! 3%nat = None ∨ argv !! 3%nat = Some "" → out = "test.json").
Proof.
  intros Hpath Hrun r out dir.
  assert (3 ≤ length argv)%nat as Hlen.
  { apply lookup_lt_Some in Hpath. lia. }
  assert (r = ExtractMain.Run
                (<[out := File (ExtractMain.JSON_stringify m)]>
                   (if decide (is_Some (fs !! dir))
                    then (fs, [])
                    else (ExtractMain.mkdirSync dir fs,
                          [ExtractMain.Mkdir dir])).1)
                ((if decide (is_Some (fs !! dir))
                  then (fs, [])
                  else (ExtractMain.mkdirSync dir fs,
                        [ExtractMain.Mkdir dir])).2
                 ++ [ExtractMain.WriteFile out;
                     ExtractMain.Extracted (size m) out])
                ExtractMain.Completed) as ->.
  { unfold r, ExtractMain.main.
    destruct (Nat.ltb_spec (length argv) 3) as [? | _]; [lia |].
    rewrite Hpath. simpl. by rewrite Hrun. }
  simpl. split; [apply lookup_insert_eq |]. split.
  { by destruct (decide (is_Some (fs !! dir))). }
  split.
  { intros p Hchain.
    rewrite lookup_insert_ne by (intros <-; by apply (Hchain 0%nat)).
    destruct (decide (is_Some (fs !! dir))); simpl; [done |].
    destruct (mkdirSync_lookup dir fs p) as [[Hsame | (_ & _ & k & ->)] _];
      [done |].
    exfalso. apply (Hchain (S k)). by rewrite Nat.iter_succ_r. }
  split.
  { intros p content Hout Hfile. rewrite lookup_insert_ne by done.
    destruct (decide (is_Some (fs !! dir))); simpl; [done |].
    destruct (mkdirSync_lookup dir fs p) as [_ Hkept].
    rewrite Hkept by (by rewrite Hfile). done. }
  split.
  { intros Hexists. by destruct (decide (is_Some (fs !! dir))). }
  split.
  { intros Hnone.
    destruct (decide (is_Some (fs !! dir))) as [Hexists | _];
      [rewrite Hnone in Hexists; by destruct Hexists |].
    simpl. split; [done |]. intros n Hn Hbelow Htop k Hk.
    destruct (decide (out = Nat.iter k ExtractMain.dirname dir)) as [<- | Hne].
    { rewrite lookup_insert_eq. by eexists. }
    rewrite lookup_insert_ne by done.
    unfold ExtractMain.mkdirSync. rewrite mkdir_lookup.
    destruct (missing_covers (S (S (String.length dir))) fs dir n k)
      as [Hexists | Hmade]; [lia | done | done | done | |].
    - destruct (decide (_ ∈ _)); [by eexists | done].
    - rewrite decide_True by done. by eexists. }
  unfold out, ExtractMain.outputPath. by intros [-> | ->].
Qed.

End EntryPoints.

Lemma extraction_output_warms_the_cache_witness :
  Fill.translateText (H := MoreSamples.warm)
    (Examples.env Examples.provider_down) "Hello" Fill.RETRY_LIMIT
    (Fill.load_cache (H := MoreSamples.warm)
       (Examples.start ∅ {[ Fill.CACHE_FILE := File "pairs" ]})).1
  = (Fill.log (Fill.UsingCache "Hello")
       (Fill.set_cache {[ "Hello" := "你好" ]}
          (Examples.start ∅ {[ Fill.CACHE_FILE := File "pairs" ]})),
     Some (VStr "你好")).
Proof.
  apply (extraction_output_warms_the_cache (H := Examples.parser)
           (H0 := MoreSamples.warm) (Examples.env Examples.provider_down)
           {[ "messages.po" := File "partly" ]} "messages.po" "pairs"
           {[ "Hello" := "你好" ]}
           (Examples.start ∅ {[ Fill.CACHE_FILE := File "pairs" ]})
           "Hello" "你好" Fill.RETRY_LIMIT); vm_compute; reflexivity.
Defined.

Lemma extraction_output_file_witness :
  let r := ExtractMain.main (H := Examples.parser) (H0 := MoreSamples.tools)
             ["node"; "test.js"; "locales"; "out/sub/result.json"]
             MoreSamples.project in
  ExtractMain.files r !! "out/sub/result.json" = Some (File "{2 pairs}")
  ∧ is_Some (ExtractMain.files r !! "out/sub")
  ∧ is_Some (ExtractMain.files r !! "out").
Proof.
  destruct (extraction_output_file (H := Examples.parser)
              (H1 := MoreSamples.tools)
              ["node"; "test.js"; "locales"; "out/sub/result.json"]
              MoreSamples.project "locales"
              {[ "Hello" := "你好"; "Bye" := "再见" ]})
    as (Hfile & _ & _ & _ & _ & Hmade & _).
  - reflexivity.
  - vm_compute; reflexivity.
  - destruct Hmade as [_ Hchain]; [vm_compute; reflexivity |].
    assert (∀ k, (k ≤ 2)%nat →
              is_Some
                (ExtractMain.files
                   (ExtractMain.main (H := Examples.parser)
                      (H0 := MoreSamples.tools)
                      ["node"; "test.js"; "locales"; "out/sub/result.json"]
                      MoreSamples.project)
                 !! Nat.iter k MoreSamples.parent "out/sub")) as Hall.
    { apply (Hchain 2%nat).
      - vm_compute. lia.
      - intros i Hi. destruct i as [|[|i]]; [vm_compute; reflexivity .. | lia].
      - left. vm_compute. by eexists. }
    split; [exact Hfile |].
    split; [apply (Hall 0%nat); lia | apply (Hall 1%nat); lia].
Defined.

(** ** What a run does to the cache *)

Section CacheFacts.
Context `{Fill.Imports} (E : Fill.Env).

Lemma written_through_refl (w : Fill.world) : written_through w w.
Proof. by left. Qed.

Lemma written_through_trans (w1 w2 w3 : Fill.world) :
  written_through w1 w2 → written_through w2 w3 → written_through w1 w3.
Proof.
  unfold written_through, synced.
  intros [[Hc Hf] | Hs] [[Hc' Hf'] | Hs']; [left | right..]; try done.
  - split; congruence.
  - by rewrite Hf', Hc'.
Qed.

Lemma translations_kept_refl (w : Fill.world) : translations_kept w w.
Proof. by intros k v. Qed.

Lemma translations_kept_trans (w1 w2 w3 : Fill.world) :
  translations_kept w1 w2 → translations_kept w2 w3 → translations_kept w1 w3.
Proof. intros H12 H23 k v Hk Hv. apply H23; [by apply H12 | done]. Qed.

(** A relation between states that looks at the cache and at the files
    only, and that every call of [translateText] respects, is respected by
    the loop over the catalog. *)
Section Lift.
Variable R : Fill.world → Fill.world → Prop.
Hypothesis R_trans : ∀ w1 w2 w3, R w1 w2 → R w2 w3 → R w1 w3.
Hypothesis R_same :
  ∀ w w', Fill.cache w' = Fill.cache w → Fill.files w' = Fill.files w → R w w'.
Hypothesis R_step :
  ∀ text w, R w (Fill.translateText E text Fill.RETRY_LIMIT w).1.

Lemma fill_entry_respects (kv : string * entry) (w : Fill.world) :
  R w (Fill.fill_entry E kv w).1.
Proof.
  destruct (fill_entry_cases E kv w)
    as [[_ ->] | [(_ & x & _ & ->) | (_ & _ & w1 & t & Hrun & ->)]].
  1,2: by apply R_same.
  pose proof (R_step (Fill.originalText kv.2)
                (Fill.log (Fill.Translating kv.1) w)) as Hstep.
  rewrite Hrun in Hstep.
  apply (R_trans _ (Fill.log (Fill.Translating kv.1) w)); [by apply R_same |].
  apply (R_trans _ w1); [exact Hstep | by apply R_same].
Qed.

Lemma fill_entries_respects (c : context) (w : Fill.world) :
  R w (Fill.mapM (Fill.fill_entry E) c w).1.
Proof.
  revert w. induction c as [|kv c IH]; intros w; [by apply R_same |].
  rewrite mapM_world_cons.
  pose proof (fill_entry_respects kv w) as Hkv.
  destruct (Fill.fill_entry E kv w) as [w1 [kv' | x]]; [| done].
  eapply R_trans; [exact Hkv | apply IH].
Qed.

Lemma fill_catalog_respects (po : catalog) (w : Fill.world) :
  R w (Fill.fill_catalog E po w).1.
Proof.
  unfold Fill.fill_catalog. revert w.
  induction po as [|[name c] po IH]; intros w; [by apply R_same |].
  rewrite mapM_world_cons, fill_context_cases.
  pose proof (fill_entries_respects c w) as Hc.
  destruct (Fill.mapM (Fill.fill_entry E) c w) as [w1 [c' | x]]; [| done].
  eapply R_trans; [exact Hc | apply IH].
Qed.

Lemma main_respects (w : Fill.world) :
  (∀ w' content,
     R w' (Fill.writeFileSync Fill.OUTPUT_PO_FILE content w')) →
  R w (Fill.main E w).
Proof.
  intros Houtput. rewrite main_cases.
  destruct (Fill.files w !! Fill.INPUT_PO_FILE) as [[input | names |] |];
    try by apply R_same.
  destruct (Fill.po_parse input) as [po |]; [| by apply R_same].
  pose proof (fill_catalog_respects po w) as Hpo.
  destruct (Fill.fill_catalog E po w) as [w' [po' | x]]; simpl in Hpo.
  - apply (R_trans _ w'); [exact Hpo |].
    eapply R_trans; [apply Houtput | by apply R_same].
  - apply (R_trans _ w'); [exact Hpo | by apply R_same].
Qed.

End Lift.

(** A call replaces no translation that is not empty: the loop is entered
    for a text whose own value is absent or empty, and writes that key
    only. *)
Lemma translateText_kept (text : string) (retries : nat) (w : Fill.world) :
  translations_kept w (Fill.translateText E text retries w).1.
Proof.
  destruct (translateText_cases E text retries w)
    as [(v & _ & _ & ->) | [(_ & _ & ->) | (Hloop & ->)]];
    [by intros k u .. |].
  intros k u Hk Hu.
  destruct (attempts_requests_and_cache E text retries retries 1 w)
    as [_ [-> | [t ->]]]; [done |].
  rewrite lookup_insert_ne; [done |].
  intros <-. destruct Hloop as [Hempty | [Hnone _]]; congruence.
Qed.

(** When the cache file can be written, the loop leaves the cache and the
    file alone, or the file holds the cache. *)
Lemma attempts_written_through (text : string) (retries fuel attempt : nat)
    (w : Fill.world) :
  (∀ n, Fill.cache_write_fails E n = false) →
  written_through w (Fill.attempts E text retries fuel attempt w).1.
Proof.
  intros Hdisk. revert attempt w.
  induction fuel as [|fuel IH]; intros attempt w; [by left |].
  rewrite attempts_S. cbv zeta. unfold Fill.saveCache.
  destruct (Fill.axios_post E _ _) as [| | dsts]; [| | rewrite Hdisk].
  1,2: destruct (attempt =? retries)%nat;
    [ by left
    | match goal with
      | |- context [Fill.attempts _ _ _ _ ?a ?w'] => apply (IH a w')
      end ].
  right. unfold synced. simpl. apply lookup_insert_eq.
Qed.

Lemma translateText_written_through (text : string) (retries : nat)
    (w : Fill.world) :
  (∀ n, Fill.cache_write_fails E n = false) →
  written_through w (Fill.translateText E text retries w).1.
Proof.
  intros Hdisk.
  destruct (translateText_cases E text retries w)
    as [(v & _ & _ & ->) | [(_ & _ & ->) | (_ & ->)]]; [by left .. |].
  by apply attempts_written_through.
Qed.

(** X23.  A run of [main] never replaces or removes a non-empty translation
    that is in the cache.  When no write of the cache file fails, it also
    keeps the file in step with the cache: at the end either the cache and
    its file are as they were, or the file holds the text of the whole
    cache, and if the file held the cache at the start, it holds it at the
    end. *)
Theorem main_keeps_the_cache (w : Fill.world) :
  translations_kept w (Fill.main E w)
  ∧ ((∀ n, Fill.cache_write_fails E n = false) →
     written_through w (Fill.main E w)
     ∧ (synced w → synced (Fill.main E w))).
Proof.
  split.
  - apply main_respects.
    + apply translations_kept_trans.
    + intros w1 w2 Hc _ k v. by rewrite Hc.
    + intros text w1. apply translateText_kept.
    + by intros w' content k v.
  - intros Hdisk.
    assert (written_through w (Fill.main E w)) as Hwritten.
    { apply main_respects.
      - apply written_through_trans.
      - intros w1 w2 Hc Hf. left. by rewrite Hc, Hf.
      - intros text w1. by apply translateText_written_through.
      - intros w' content. left. split; [done |]. simpl.
        by rewrite lookup_insert_ne. }
    split; [done |].
    intros Hsynced. destruct Hwritten as [[Hc Hf] | Hs]; [| done].
    unfold synced in *. by rewrite Hf, Hc.
Qed.

End CacheFacts.

Lemma main_keeps_the_cache_witness :
  synced (H := Examples.libraries)
    (Fill.main (H := Examples.libraries)
       (Examples.env (Examples.provider_answers ["你好"]))
       (Examples.start ∅
          (<[Fill.CACHE_FILE := File "{}"]> (Samples.on_disk "todo")))).
Proof.
  destruct (main_keeps_the_cache (H := Examples.libraries)
              (Examples.env (Examples.provider_answers ["你好"]))
              (Examples.start ∅
                 (<[Fill.CACHE_FILE := File "{}"]> (Samples.on_disk "todo"))))
    as [_ Hdisk].
  destruct Hdisk as [_ Hsynced]; [reflexivity |].
  apply Hsynced. vm_compute; reflexivity.
Defined.
